(** * Dilated and causal convolution: a shallow embedding of [causal_conv.ipynb]

    The notebook builds a one-dimensional causal convolution and a dilated
    causal convolution out of four TensorFlow primitives: [tf.pad],
    [tf.reshape], [tf.transpose] and [tf.nn.conv1d].  This file embeds the
    primitives on rank-3 tensors (batch, time, channel), the four code cells
    of the notebook as functions of the notebook's variables ([input_len],
    [filter_width], [dilation], [X], [H]), and proves the properties of the
    pipeline.

    The notebook's tensors are float32.  The embedding holds every sample
    as an integer and computes exactly: float32 holds every integer of
    magnitude up to [2 ^ 24], so the embedding and the code agree as long as
    the samples, the taps and every product and partial sum stay in that
    range, which is so for the notebook's own data ([tf.range] and
    [tf.ones]).  The theorems that depend on the value of a sum carry that
    range as a hypothesis; the theorems about shapes, layout, errors and
    about two runs of one computation do not need it.  Outside the range the
    code rounds: the [f32_] definitions below are the float32 operations
    themselves, and show where the exact laws stop.  Python integers are
    [Z]; tensor dimensions are [nat]; an operation that raises returns
    [None]. *)

From Stdlib Require Import ZArith List Lia Bool Arith.
From Stdlib Require SpecFloat.
Import ListNotations.

(** ** The error monad of the embedding *)

Definition bind {A B : Type} (m : option A) (f : A -> option B) : option B :=
  match m with
  | Some a => f a
  | None => None
  end.

Notation "x <- m ;; k" := (bind m (fun x => k))
  (at level 61, m at next level, right associativity).

(** Python's [a % b]: the sign follows the divisor, and a zero divisor raises. *)
Definition py_mod (a b : Z) : option Z :=
  if (b =? 0)%Z then None else Some (a mod b)%Z.

(** ** Tensors *)

(** A rank-3 tensor is its shape and its row-major buffer. *)
Record Tensor : Type := mkTensor {
  dim0 : nat;
  dim1 : nat;
  dim2 : nat;
  data : list Z
}.

Definition size (t : Tensor) : nat := dim0 t * dim1 t * dim2 t.

Definition well_formed (t : Tensor) : Prop := length (data t) = size t.

Definition shape (t : Tensor) : nat * nat * nat := (dim0 t, dim1 t, dim2 t).

Definition flat_index (t : Tensor) (i j k : nat) : nat :=
  (i * dim1 t + j) * dim2 t + k.

Definition get (t : Tensor) (i j k : nat) : Z :=
  nth (flat_index t i j k) (data t) 0%Z.

(** The tensor of shape [(n0, n1, n2)] whose element [(i, j, k)] is [f i j k]. *)
Definition tabulate (n0 n1 n2 : nat) (f : nat -> nat -> nat -> Z) : Tensor :=
  mkTensor n0 n1 n2
    (map (fun idx => f (idx / (n1 * n2)) (idx / n2 mod n1) (idx mod n2))
         (seq 0 (n0 * n1 * n2))).

Definition nonneg (z : Z) : bool := (0 <=? z)%Z.

(** ** The TensorFlow primitives the notebook calls *)

(** [tf.range(limit)]: the values [0 .. limit-1]; it raises on a negative
    limit.  A rank-1 tensor of [n] elements is held with shape [(n, 1, 1)]. *)
Definition tf_range (limit : Z) : option Tensor :=
  if (limit <? 0)%Z then None
  else
    let n := Z.to_nat limit in
    Some (mkTensor n 1 1 (map Z.of_nat (seq 0 n))).

(** [tf.ones(shape)]. *)
Definition tf_ones (shp : list Z) : option Tensor :=
  match shp with
  | [a; b; c] =>
      if nonneg a && nonneg b && nonneg c
      then Some (tabulate (Z.to_nat a) (Z.to_nat b) (Z.to_nat c)
                          (fun _ _ _ => 1%Z))
      else None
  | _ => None
  end.

(** The dimension that [-1] stands for in a reshape: the element count
    divided by the product of the other dimensions. *)
Definition infer_dim (total rest : nat) : option nat :=
  if rest =? 0 then None
  else if total mod rest =? 0 then Some (total / rest) else None.

(** The shape a reshape to [shp] gives a buffer of [total] elements; one
    dimension may be [-1]. *)
Definition reshape_dims (total : nat) (shp : list Z)
  : option (nat * nat * nat) :=
  match shp with
  | [a; b; c] =>
      match (a =? -1)%Z, (b =? -1)%Z, (c =? -1)%Z with
      | true, false, false =>
          if nonneg b && nonneg c then
            n <- infer_dim total (Z.to_nat b * Z.to_nat c) ;;
            Some (n, Z.to_nat b, Z.to_nat c)
          else None
      | false, true, false =>
          if nonneg a && nonneg c then
            n <- infer_dim total (Z.to_nat a * Z.to_nat c) ;;
            Some (Z.to_nat a, n, Z.to_nat c)
          else None
      | false, false, true =>
          if nonneg a && nonneg b then
            n <- infer_dim total (Z.to_nat a * Z.to_nat b) ;;
            Some (Z.to_nat a, Z.to_nat b, n)
          else None
      | false, false, false =>
          if nonneg a && nonneg b && nonneg c
             && (Z.to_nat a * Z.to_nat b * Z.to_nat c =? total)
          then Some (Z.to_nat a, Z.to_nat b, Z.to_nat c)
          else None
      | _, _, _ => None
      end
  | _ => None
  end.

(** [tf.reshape(t, shape)]: the buffer is kept, the shape replaced. *)
Definition tf_reshape (t : Tensor) (shp : list Z) : option Tensor :=
  match reshape_dims (length (data t)) shp with
  | Some (n0, n1, n2) => Some (mkTensor n0 n1 n2 (data t))
  | None => None
  end.

(** [tf.pad(t, paddings)] in the default ['CONSTANT'] mode: [paddings] gives,
    per axis, the number of zeros put before and after. *)
Definition tf_pad (t : Tensor) (paddings : list (Z * Z)) : option Tensor :=
  match paddings with
  | [(b0, a0); (b1, a1); (b2, a2)] =>
      if forallb nonneg [b0; a0; b1; a1; b2; a2] then
        let p0 := Z.to_nat b0 in
        let p1 := Z.to_nat b1 in
        let p2 := Z.to_nat b2 in
        Some (tabulate (p0 + dim0 t + Z.to_nat a0)
                       (p1 + dim1 t + Z.to_nat a1)
                       (p2 + dim2 t + Z.to_nat a2)
                (fun i j k =>
                   if (p0 <=? i) && (i <? p0 + dim0 t)
                      && (p1 <=? j) && (j <? p1 + dim1 t)
                      && (p2 <=? k) && (k <? p2 + dim2 t)
                   then get t (i - p0) (j - p1) (k - p2)
                   else 0%Z))
      else None
  | _ => None
  end.

Definition axis_len (t : Tensor) (a : nat) : nat :=
  match a with
  | 0 => dim0 t
  | 1 => dim1 t
  | _ => dim2 t
  end.

Definition is_perm3 (p0 p1 p2 : nat) : bool :=
  (p0 <? 3) && (p1 <? 3) && (p2 <? 3)
  && negb (p0 =? p1) && negb (p0 =? p2) && negb (p1 =? p2).

(** [tf.transpose(t, perm)]: axis [a] of the result is axis [perm[a]] of [t]. *)
Definition tf_transpose (t : Tensor) (perm : list nat) : option Tensor :=
  match perm with
  | [p0; p1; p2] =>
      if is_perm3 p0 p1 p2 then
        Some (tabulate (axis_len t p0) (axis_len t p1) (axis_len t p2)
                (fun i0 i1 i2 =>
                   let src a := if p0 =? a then i0
                                else if p1 =? a then i1 else i2 in
                   get t (src 0) (src 1) (src 2)))
      else None
  | _ => None
  end.

Inductive Padding : Type := VALID | SAME.

Fixpoint dot (u v : list Z) : Z :=
  match u, v with
  | a :: u', b :: v' => (a * b + dot u' v')%Z
  | _, _ => 0%Z
  end.

(** The [width] time steps of batch element [b] that start at [start], all
    channels, as one row. *)
Definition patch (t : Tensor) (width b start : nat) : list Z :=
  firstn (width * dim2 t) (skipn ((b * dim1 t + start) * dim2 t) (data t)).

(** Column [o] of the filter read as a [(filter_width * in_channels)] by
    [out_channels] matrix. *)
Definition filter_column (h : Tensor) (o : nat) : list Z :=
  map (fun m => nth (m * dim2 h + o) (data h) 0%Z) (seq 0 (dim0 h * dim1 h)).

(** A filter with no tap, no input channel or no output channel is
    refused by the convolution. *)
Definition nonempty_filter (h : Tensor) : bool :=
  (1 <=? dim0 h) && (1 <=? dim1 h) && (1 <=? dim2 h).

(** ['VALID'] convolution: no implicit padding; every output sample is the
    product of a patch with a filter column.  It raises on an empty filter,
    on a channel count that differs from the filter's input channels (as
    the notebook's TensorFlow 1 does), on a stride below one, and when the
    signal is shorter than the filter. *)
Definition conv1d_valid (x h : Tensor) (stride : nat) : option Tensor :=
  if nonempty_filter h
     && (dim2 x =? dim1 h) && (1 <=? stride) && (dim0 h <=? dim1 x) then
    Some (tabulate (dim0 x) ((dim1 x - dim0 h) / stride + 1) (dim2 h)
            (fun b t o => dot (patch x (dim0 h) b (t * stride))
                              (filter_column h o)))
  else None.

(** [tf.nn.conv1d(value, filters, stride, padding)].  ['SAME'] pads the time
    axis with zeros so that the output has [ceil(T / stride)] samples. *)
Definition tf_nn_conv1d (x h : Tensor) (stride : nat) (padding : Padding)
  : option Tensor :=
  match padding with
  | VALID => conv1d_valid x h stride
  | SAME =>
      if 1 <=? stride then
        let out := (dim1 x + stride - 1) / stride in
        let total :=
          Z.to_nat ((Z.of_nat out - 1) * Z.of_nat stride
                    + Z.of_nat (dim0 h) - Z.of_nat (dim1 x)) in
        let left := total / 2 in
        x_pad <- tf_pad x [(0, 0); (Z.of_nat left, Z.of_nat (total - left));
                           (0, 0)]%Z ;;
        conv1d_valid x_pad h stride
      else None
  end.

(** ** The cells of the notebook *)

(** Cell 2: [X = tf.reshape(tf.range(input_len), [1, input_len, 1])]. *)
Definition make_X (input_len : Z) : option Tensor :=
  X <- tf_range input_len ;;
  tf_reshape X [1; input_len; 1]%Z.

(** Cell 4: [H = tf.ones([filter_width, 1, 1])]. *)
Definition make_H (filter_width : Z) : option Tensor :=
  tf_ones [filter_width; 1; 1]%Z.

(** Cell 4: [Y = tf.nn.conv1d(X, H, 1, 'VALID')]. *)
Definition basic_conv (X H : Tensor) : option Tensor :=
  tf_nn_conv1d X H 1 VALID.

(** Cell 6, the left padding:
    [tf.pad(X, [[0, 0], [filter_width - 1, 0], [0, 0]], 'CONSTANT')]. *)
Definition causal_pad (filter_width : Z) (X : Tensor) : option Tensor :=
  tf_pad X [(0, 0); (filter_width - 1, 0); (0, 0)]%Z.

(** Cell 6: the non-dilated causal convolution. *)
Definition causal_conv (filter_width : Z) (X H : Tensor) : option Tensor :=
  X_pad <- causal_pad filter_width X ;;
  tf_nn_conv1d X_pad H 1 VALID.

(** Cell 8: [(dilation - input_len % dilation) % dilation]. *)
Definition pad_amount (input_len dilation : Z) : option Z :=
  r <- py_mod input_len dilation ;;
  py_mod (dilation - r) dilation.

(** Cell 8, "turn our input signal into multiple subsampled signals". *)
Definition subsample (input_len dilation : Z) (X : Tensor) : option Tensor :=
  amount <- pad_amount input_len dilation ;;
  padded <- tf_pad X [(0, 0); (0, amount); (0, 0)]%Z ;;
  reshaped <- tf_reshape padded [-1; dilation; 1]%Z ;;
  transposed <- tf_transpose reshaped [1; 0; 2] ;;
  tf_reshape transposed [dilation; -1; 1]%Z.

(** Cell 8, "undo our subsampling". *)
Definition undo_subsample (dilation : Z) (Y : Tensor) : option Tensor :=
  prepared <- tf_reshape Y [dilation; -1; 1]%Z ;;
  transposed <- tf_transpose prepared [1; 0; 2] ;;
  tf_reshape transposed [1; -1; 1]%Z.

(** Cell 8: the dilated causal convolution. *)
Definition dilated_causal_conv (input_len filter_width dilation : Z)
  (X H : Tensor) : option Tensor :=
  X_pad <- subsample input_len dilation X ;;
  X_pad <- causal_pad filter_width X_pad ;;
  Y <- tf_nn_conv1d X_pad H 1 VALID ;;
  undo_subsample dilation Y.

(** ** Sums and element-wise operations used by the statements *)

Fixpoint sum_n (n : nat) (f : nat -> Z) : Z :=
  match n with
  | 0 => 0%Z
  | S m => (sum_n m f + f m)%Z
  end.

Fixpoint zip_with (f : Z -> Z -> Z) (u v : list Z) : list Z :=
  match u, v with
  | a :: u', b :: v' => f a b :: zip_with f u' v'
  | _, _ => []
  end.

Definition tensor_add (x y : Tensor) : Tensor :=
  mkTensor (dim0 x) (dim1 x) (dim2 x) (zip_with Z.add (data x) (data y)).

Definition tensor_scale (c : Z) (x : Tensor) : Tensor :=
  mkTensor (dim0 x) (dim1 x) (dim2 x) (map (Z.mul c) (data x)).

Definition lift2 (f : Tensor -> Tensor -> Tensor) (a b : option Tensor)
  : option Tensor :=
  match a, b with
  | Some u, Some v => Some (f u v)
  | _, _ => None
  end.

(** ** Single-channel signals and the closed forms of the outputs *)

(** The notebook's tensors have batch size one and one channel; the reshape
    targets of cell 8 spell both out.  [sample] and [tap] read such a signal
    and such a filter. *)
Definition sample (x : Tensor) (t : nat) : Z := get x 0 t 0.

Definition tap (h : Tensor) (k : nat) : Z := get h k 0 0.

(** The count of zero time steps cell 8 appends, the padded length and the
    length of each subsampled stream, on natural numbers. *)
Definition tail_padding (T d : nat) : nat := (d - T mod d) mod d.

Definition padded_len (T d : nat) : nat := T + tail_padding T d.

Definition stream_len (T d : nat) : nat := padded_len T d / d.

(** Sample [t] of the non-dilated causal convolution in closed form. *)
Definition causal_sum (X H : Tensor) (fw t : nat) : Z :=
  sum_n fw (fun k =>
    Z.mul (if t + k <? fw - 1 then 0%Z else sample X (t + k - (fw - 1)))
          (tap H k)).

(** Sample [t] of the dilated causal convolution in closed form: tap
    [fw - 1] meets sample [t], tap [fw - 2] sample [t - d], and so on, with
    zeros before the start of the signal. *)
Definition dilated_sum (X H : Tensor) (fw d t : nat) : Z :=
  sum_n fw (fun k =>
    Z.mul (if t / d + k <? fw - 1 then 0%Z
           else sample X ((t / d + k - (fw - 1)) * d + t mod d))
          (tap H k)).

(** The dilated causal convolution written out: tap [k] weighs the sample
    [(fw - 1 - k) * d] steps before time [t], and a sample before time 0
    counts as zero. *)
Definition dilated_reference (X H : Tensor) (fw d t : nat) : Z :=
  sum_n fw (fun k =>
    Z.mul (tap H k)
          (if (fw - 1 - k) * d <=? t
           then sample X (t - (fw - 1 - k) * d) else 0%Z)).

(** ** The naive dilated convolution the pipeline stands for *)

(** The specification's reference for the pipeline is the ordinary causal
    convolution with a zero-interleaved filter.  [dilate_filter] is that
    filter: [d - 1] zeros between consecutive taps of [H], so that tap [k]
    of [H] sits at offset [k * d]. *)
Definition dilate_filter (H : Tensor) (d : nat) : Tensor :=
  tabulate ((dim0 H - 1) * d + 1) (dim1 H) (dim2 H)
    (fun j c o => if j mod d =? 0 then get H (j / d) c o else 0%Z).

(** The causal convolution of cell 6 run with the zero-interleaved filter. *)
Definition naive_dilated_causal_conv (d : nat) (X H : Tensor) : option Tensor :=
  let Hd := dilate_filter H d in
  causal_conv (Z.of_nat (dim0 Hd)) X Hd.

(** ** Linear operations *)

(** Two tensors can be added when both are well formed and have one shape. *)
Definition similar (x y : Tensor) : Prop :=
  well_formed x /\ well_formed y /\ shape x = shape y.

Definition similar_results (a b : option Tensor) : Prop :=
  match a, b with
  | Some u, Some v => similar u v
  | None, None => True
  | _, _ => False
  end.

(** An operation is linear when it succeeds on a sum exactly when it
    succeeds on the summands, and commutes with sums and scalar multiples. *)
Definition linear_op (op : Tensor -> option Tensor) : Prop :=
  (forall x y, similar x y ->
     similar_results (op x) (op y) /\
     op (tensor_add x y) = lift2 tensor_add (op x) (op y)) /\
  (forall c x, op (tensor_scale c x) = option_map (tensor_scale c) (op x)).

(** ** Float32 arithmetic on integer-valued samples *)



(** Every integer of magnitude up to [2 ^ 24] is a float32 value. *)
Definition f32_int_limit : Z := 16777216.








(** Every entry of the tensor has magnitude at most [A]. *)
Definition within (A : Z) (t : Tensor) : bool :=
  forallb (fun z => (Z.abs z <=? A)%Z) (data t).

(** The number of products summed into one output sample. *)
Definition window_size (h : Tensor) : Z := Z.of_nat (dim0 h * dim1 h).

(** * Index arithmetic of the row-major layout *)

Section Layout.

Variables n1 n2 : nat.

Lemma unravel_0 (i j k : nat) :
  j < n1 -> k < n2 -> ((i * n1 + j) * n2 + k) / (n1 * n2) = i.
Proof.
  intros Hj Hk.
  symmetry. apply Nat.div_unique with (r := j * n2 + k); nia.
Qed.

Lemma unravel_1 (i j k : nat) :
  j < n1 -> k < n2 -> ((i * n1 + j) * n2 + k) / n2 mod n1 = j.
Proof.
  intros Hj Hk.
  replace (((i * n1 + j) * n2 + k) / n2) with (i * n1 + j).
  - symmetry. apply Nat.mod_unique with (q := i); lia.
  - apply Nat.div_unique with (r := k); lia.
Qed.

Lemma unravel_2 (i j k : nat) :
  k < n2 -> ((i * n1 + j) * n2 + k) mod n2 = k.
Proof.
  intros Hk. symmetry. apply Nat.mod_unique with (q := i * n1 + j); lia.
Qed.

Lemma ravel_lt (n0 i j k : nat) :
  i < n0 -> j < n1 -> k < n2 -> (i * n1 + j) * n2 + k < n0 * n1 * n2.
Proof.
  intros Hi Hj Hk.
  assert (H1 : S (i * n1 + j) <= n0 * n1) by nia.
  apply Nat.lt_le_trans with (S (i * n1 + j) * n2); [lia |].
  apply Nat.mul_le_mono_r; exact H1.
Qed.

Lemma unravel_lt (n0 idx : nat) :
  idx < n0 * n1 * n2 ->
  idx / (n1 * n2) < n0 /\ idx / n2 mod n1 < n1 /\ idx mod n2 < n2.
Proof.
  intros H.
  assert (n1 <> 0) by nia. assert (n2 <> 0) by nia.
  repeat split.
  - apply Nat.Div0.div_lt_upper_bound; nia.
  - apply Nat.mod_upper_bound; assumption.
  - apply Nat.mod_upper_bound; assumption.
Qed.

Lemma ravel_unravel (idx : nat) :
  n1 <> 0 -> n2 <> 0 ->
  (idx / (n1 * n2) * n1 + idx / n2 mod n1) * n2 + idx mod n2 = idx.
Proof.
  intros H1 H2.
  rewrite (Nat.mul_comm n1 n2), <- Nat.Div0.div_div.
  pose proof (Nat.div_mod (idx / n2) n1 H1).
  pose proof (Nat.div_mod idx n2 H2).
  nia.
Qed.

End Layout.

(** * Tabulated tensors *)

Lemma tabulate_well_formed (n0 n1 n2 : nat) (f : nat -> nat -> nat -> Z) :
  well_formed (tabulate n0 n1 n2 f).
Proof.
  unfold well_formed, size, tabulate; simpl.
  now rewrite length_map, length_seq.
Qed.

Lemma nth_map_seq (n idx : nat) (g : nat -> Z) :
  idx < n -> nth idx (map g (seq 0 n)) 0%Z = g idx.
Proof.
  intros H.
  rewrite (nth_indep _ 0%Z (g 0)) by (now rewrite length_map, length_seq).
  rewrite (map_nth g), seq_nth by assumption. reflexivity.
Qed.

Lemma get_tabulate (n0 n1 n2 : nat) (f : nat -> nat -> nat -> Z) (i j k : nat) :
  i < n0 -> j < n1 -> k < n2 -> get (tabulate n0 n1 n2 f) i j k = f i j k.
Proof.
  intros Hi Hj Hk. unfold get, flat_index, tabulate; simpl.
  rewrite nth_map_seq by (apply ravel_lt; assumption).
  now rewrite unravel_0, unravel_1, unravel_2.
Qed.

Lemma tabulate_ext (n0 n1 n2 : nat) (f g : nat -> nat -> nat -> Z) :
  (forall i j k, i < n0 -> j < n1 -> k < n2 -> f i j k = g i j k) ->
  tabulate n0 n1 n2 f = tabulate n0 n1 n2 g.
Proof.
  intros H. unfold tabulate. f_equal.
  apply map_ext_in. intros idx Hin. apply in_seq in Hin.
  destruct (unravel_lt n1 n2 n0 idx) as (H0 & H1 & H2); [lia |].
  now apply H.
Qed.

(** Replacing the shape of a tabulated tensor: the element at [(i, j, k)] of
    the new shape is the old element at the same row-major offset. *)
Lemma reshape_tabulate (n0 n1 n2 m0 m1 m2 : nat) (f : nat -> nat -> nat -> Z) :
  n0 * n1 * n2 = m0 * m1 * m2 ->
  mkTensor m0 m1 m2 (data (tabulate n0 n1 n2 f)) =
  tabulate m0 m1 m2
    (fun i j k => let idx := (i * m1 + j) * m2 + k in
                  f (idx / (n1 * n2)) (idx / n2 mod n1) (idx mod n2)).
Proof.
  intros Hsz. unfold tabulate; simpl. f_equal. rewrite Hsz.
  apply map_ext_in. intros idx Hin. apply in_seq in Hin.
  assert (m1 <> 0) by nia. assert (m2 <> 0) by nia.
  now rewrite ravel_unravel.
Qed.

Lemma tensor_eta (t : Tensor) :
  well_formed t -> t = tabulate (dim0 t) (dim1 t) (dim2 t) (get t).
Proof.
  destruct t as [n0 n1 n2 l]. unfold well_formed, size, tabulate, get, flat_index.
  simpl. intros Hlen. f_equal.
  apply nth_ext with (d := 0%Z) (d' := 0%Z).
  - now rewrite length_map, length_seq.
  - intros idx Hidx. rewrite Hlen in Hidx.
    rewrite nth_map_seq by assumption.
    assert (n1 <> 0) by nia. assert (n2 <> 0) by nia.
    now rewrite ravel_unravel.
Qed.

(** * Sums and inner products *)

Lemma sum_n_ext (n : nat) (f g : nat -> Z) :
  (forall i, i < n -> f i = g i) -> sum_n n f = sum_n n g.
Proof.
  induction n as [| n IH]; intros H; simpl; [reflexivity |].
  rewrite IH, H by auto. reflexivity.
Qed.

Lemma sum_n_shift (n : nat) (f : nat -> Z) :
  sum_n (S n) f = (f O + sum_n n (fun i => f (S i)))%Z.
Proof.
  induction n as [| n IH]; [simpl; lia |].
  change (sum_n (S (S n)) f) with (sum_n (S n) f + f (S n))%Z.
  rewrite IH. simpl. lia.
Qed.

Lemma sum_n_add (n : nat) (f g : nat -> Z) :
  sum_n n (fun i => (f i + g i)%Z) = (sum_n n f + sum_n n g)%Z.
Proof. induction n as [| n IH]; simpl; lia. Qed.

Lemma sum_n_scale (n : nat) (c : Z) (f : nat -> Z) :
  sum_n n (fun i => (c * f i)%Z) = (c * sum_n n f)%Z.
Proof. induction n as [| n IH]; simpl; lia. Qed.

Lemma sum_n_zero (n : nat) (f : nat -> Z) :
  (forall i, i < n -> f i = 0%Z) -> sum_n n f = 0%Z.
Proof.
  induction n as [| n IH]; intros H; simpl; [reflexivity |].
  rewrite IH, H by auto. reflexivity.
Qed.

Lemma sum_n_app (a b : nat) (f : nat -> Z) :
  sum_n (a + b) f = (sum_n a f + sum_n b (fun i => f (a + i)%nat))%Z.
Proof.
  induction b as [| b IH].
  - rewrite Nat.add_0_r. simpl. lia.
  - rewrite Nat.add_succ_r. simpl. rewrite IH. lia.
Qed.

(** A sum over [a * b] flat offsets is the double sum over rows and columns. *)
Lemma sum_n_mul (a b : nat) (f : nat -> Z) :
  sum_n (a * b) f = sum_n a (fun k => sum_n b (fun c => f (k * b + c))).
Proof.
  induction a as [| a IH]; [reflexivity |].
  simpl sum_n at 2. rewrite <- IH.
  replace (S a * b) with (a * b + b) by lia.
  apply sum_n_app.
Qed.

(** [dot] stops at the shorter list; the missing terms are zero anyway. *)
Lemma dot_sum (u v : list Z) :
  dot u v = sum_n (length v) (fun m => (nth m u 0 * nth m v 0)%Z).
Proof.
  revert v. induction u as [| a u IH]; intros v.
  - rewrite sum_n_zero by (intros; destruct i; reflexivity).
    destruct v; reflexivity.
  - destruct v as [| b v]; [reflexivity |].
    simpl length. rewrite sum_n_shift. simpl. now rewrite IH.
Qed.

Lemma nth_firstn (n m : nat) (l : list Z) :
  m < n -> nth m (firstn n l) 0%Z = nth m l 0%Z.
Proof.
  revert m l. induction n as [| n IH]; intros m l H; [lia |].
  destruct l as [| a l]; [now destruct m |].
  destruct m as [| m]; simpl; [reflexivity | apply IH; lia].
Qed.

Lemma nth_skipn (n m : nat) (l : list Z) :
  nth m (skipn n l) 0%Z = nth (n + m) l 0%Z.
Proof.
  revert l. induction n as [| n IH]; intros l; [reflexivity |].
  destruct l as [| a l]; [now destruct m | simpl; apply IH].
Qed.

(** Every output sample of the patch-times-column product is the double sum
    over taps and input channels. *)
Lemma dot_patch (x h : Tensor) (b start o : nat) :
  dim2 x = dim1 h ->
  dot (patch x (dim0 h) b start) (filter_column h o) =
  sum_n (dim0 h) (fun k =>
    sum_n (dim1 h) (fun c => (get x b (start + k)%nat c * get h k c o)%Z)).
Proof.
  intros Hc. rewrite dot_sum. unfold filter_column.
  rewrite length_map, length_seq, sum_n_mul.
  apply sum_n_ext; intros k Hk. apply sum_n_ext; intros c Hcl.
  unfold patch, get, flat_index. rewrite Hc.
  rewrite nth_firstn by nia.
  rewrite nth_skipn, nth_map_seq by nia.
  f_equal. f_equal. lia.
Qed.

(** * What each primitive returns *)

Lemma py_mod_nat (a d : nat) :
  1 <= d -> py_mod (Z.of_nat a) (Z.of_nat d) = Some (Z.of_nat (a mod d)).
Proof.
  intros Hd. unfold py_mod.
  destruct (Z.eqb_spec (Z.of_nat d) 0) as [E | _]; [lia |].
  now rewrite Nat2Z.inj_mod.
Qed.

Lemma pad_amount_nat (T d : nat) :
  1 <= d ->
  pad_amount (Z.of_nat T) (Z.of_nat d) = Some (Z.of_nat ((d - T mod d) mod d)).
Proof.
  intros Hd. unfold pad_amount. rewrite py_mod_nat by assumption. cbn [bind].
  assert (T mod d < d) by (apply Nat.mod_upper_bound; lia).
  rewrite <- Nat2Z.inj_sub by lia.
  now apply py_mod_nat.
Qed.

Lemma padded_length_multiple (T d : nat) :
  1 <= d -> (T + (d - T mod d) mod d) mod d = 0.
Proof.
  intros Hd.
  assert (Hr : T mod d < d) by (apply Nat.mod_upper_bound; lia).
  pose proof (Nat.div_mod T d ltac:(lia)) as HT.
  destruct (Nat.eq_dec (T mod d) 0) as [E | E].
  - rewrite E, Nat.sub_0_r, Nat.Div0.mod_same, Nat.add_0_r. exact E.
  - rewrite (Nat.mod_small (d - T mod d)) by lia.
    symmetry. apply Nat.mod_unique with (q := S (T / d)); lia.
Qed.

Lemma infer_dim_exact (n rest : nat) :
  rest <> 0 -> infer_dim (n * rest) rest = Some n.
Proof.
  intros Hr. unfold infer_dim.
  destruct (Nat.eqb_spec rest 0) as [E | _]; [contradiction |].
  rewrite Nat.Div0.mod_mul, Nat.div_mul by assumption. reflexivity.
Qed.

Lemma of_nat_not_minus_one (n : nat) : (Z.of_nat n =? -1)%Z = false.
Proof. apply Z.eqb_neq. lia. Qed.

Lemma nonneg_of_nat (n : nat) : nonneg (Z.of_nat n) = true.
Proof. unfold nonneg. apply Z.leb_le. lia. Qed.

(** [tf.reshape(t, [-1, d, 1])] *)
Lemma tf_reshape_blocks (t : Tensor) (n d : nat) :
  1 <= d -> length (data t) = n * d ->
  tf_reshape t [-1; Z.of_nat d; 1]%Z = Some (mkTensor n d 1 (data t)).
Proof.
  intros Hd Hlen. unfold tf_reshape, reshape_dims.
  rewrite of_nat_not_minus_one, nonneg_of_nat, Nat2Z.id.
  cbn [Z.eqb nonneg Z.leb Z.compare andb Z.to_nat Pos.to_nat Pos.iter_op Nat.add].
  rewrite Nat.mul_1_r, Hlen, infer_dim_exact by lia. reflexivity.
Qed.

(** [tf.reshape(t, [d, -1, 1])] *)
Lemma tf_reshape_streams (t : Tensor) (n d : nat) :
  1 <= d -> length (data t) = d * n ->
  tf_reshape t [Z.of_nat d; -1; 1]%Z = Some (mkTensor d n 1 (data t)).
Proof.
  intros Hd Hlen. unfold tf_reshape, reshape_dims.
  rewrite of_nat_not_minus_one, nonneg_of_nat, Nat2Z.id.
  cbn [Z.eqb nonneg Z.leb Z.compare andb Z.to_nat Pos.to_nat Pos.iter_op Nat.add].
  rewrite Nat.mul_1_r, Hlen, (Nat.mul_comm d n), infer_dim_exact by lia.
  reflexivity.
Qed.

(** [tf.reshape(t, [1, -1, 1])] *)
Lemma tf_reshape_single (t : Tensor) :
  tf_reshape t [1; -1; 1]%Z = Some (mkTensor 1 (length (data t)) 1 (data t)).
Proof.
  unfold tf_reshape, reshape_dims. cbn. unfold infer_dim. cbn.
  now rewrite Nat.div_1_r.
Qed.

(** [tf.transpose(t, perm=[1, 0, 2])] swaps batch and time. *)
Lemma tf_transpose_102 (t : Tensor) :
  tf_transpose t [1; 0; 2] =
  Some (tabulate (dim1 t) (dim0 t) (dim2 t) (fun i j k => get t j i k)).
Proof. reflexivity. Qed.

(** [tf.pad(t, [[0, 0], [0, b], [0, 0]])]: zeros after the last time step. *)
Lemma tf_pad_right (t : Tensor) (b : nat) :
  tf_pad t [(0, 0); (0, Z.of_nat b); (0, 0)]%Z =
  Some (tabulate (dim0 t) (dim1 t + b) (dim2 t)
          (fun i j k => if j <? dim1 t then get t i j k else 0%Z)).
Proof.
  unfold tf_pad. cbn [forallb]. rewrite nonneg_of_nat, Nat2Z.id.
  cbn [nonneg Z.leb Z.compare andb Z.to_nat Nat.add].
  rewrite !Nat.add_0_r. f_equal.
  apply tabulate_ext. intros i j k Hi Hj Hk.
  rewrite !Nat.sub_0_r.
  destruct (Nat.ltb_spec i (dim0 t)); [| lia].
  destruct (Nat.ltb_spec k (dim2 t)); [| lia].
  cbn [Nat.leb andb]. now rewrite !andb_true_r.
Qed.

(** [tf.pad(t, [[0, 0], [a, 0], [0, 0]])]: zeros before the first time step. *)
Lemma tf_pad_left (t : Tensor) (a : nat) :
  tf_pad t [(0, 0); (Z.of_nat a, 0); (0, 0)]%Z =
  Some (tabulate (dim0 t) (a + dim1 t) (dim2 t)
          (fun i j k => if j <? a then 0%Z else get t i (j - a) k)).
Proof.
  unfold tf_pad. cbn [forallb]. rewrite nonneg_of_nat, Nat2Z.id.
  cbn [nonneg Z.leb Z.compare andb Z.to_nat Nat.add].
  rewrite !Nat.add_0_r. f_equal.
  apply tabulate_ext. intros i j k Hi Hj Hk.
  rewrite !Nat.sub_0_r.
  destruct (Nat.ltb_spec i (dim0 t)); [| lia].
  destruct (Nat.ltb_spec k (dim2 t)); [| lia].
  destruct (Nat.ltb_spec j (a + dim1 t)); [| lia].
  cbn [Nat.leb andb]. rewrite !andb_true_r.
  destruct (Nat.leb_spec a j), (Nat.ltb_spec j a); try lia; reflexivity.
Qed.

Lemma causal_pad_nat (fw : nat) (t : Tensor) :
  1 <= fw ->
  causal_pad (Z.of_nat fw) t =
  Some (tabulate (dim0 t) (fw - 1 + dim1 t) (dim2 t)
          (fun i j k => if j <? fw - 1 then 0%Z else get t i (j - (fw - 1)) k)).
Proof.
  intros Hfw. unfold causal_pad.
  replace (Z.of_nat fw - 1)%Z with (Z.of_nat (fw - 1)) by lia.
  apply tf_pad_left.
Qed.

Lemma nonempty_filter_true (h : Tensor) :
  1 <= dim0 h -> 1 <= dim1 h -> 1 <= dim2 h -> nonempty_filter h = true.
Proof.
  intros H0 H1 H2. unfold nonempty_filter.
  now rewrite !(proj2 (Nat.leb_le _ _)) by assumption.
Qed.

Lemma nonempty_filter_single (h : Tensor) (fw : nat) :
  shape h = (fw, 1, 1) -> 1 <= fw -> nonempty_filter h = true.
Proof.
  intros Hsh Hfw. injection Hsh as H0 H1 H2.
  apply nonempty_filter_true; lia.
Qed.

(** ['VALID'] convolution with stride one, sample by sample. *)
Lemma conv1d_valid_stride1 (x h : Tensor) :
  nonempty_filter h = true ->
  dim2 x = dim1 h -> dim0 h <= dim1 x ->
  tf_nn_conv1d x h 1 VALID =
  Some (tabulate (dim0 x) (dim1 x - dim0 h + 1) (dim2 h)
          (fun b t o =>
             sum_n (dim0 h) (fun k =>
               sum_n (dim1 h) (fun c =>
                 (get x b (t + k) c * get h k c o)%Z)))).
Proof.
  intros Hne Hc Hlen. unfold tf_nn_conv1d, conv1d_valid.
  rewrite Hne, (proj2 (Nat.eqb_eq _ _) Hc), (proj2 (Nat.leb_le _ _) Hlen).
  cbn [Nat.leb andb]. rewrite Nat.div_1_r. f_equal.
  apply tabulate_ext. intros b t o _ _ _.
  rewrite Nat.mul_1_r. now apply dot_patch.
Qed.

Lemma conv1d_valid_fails (x h : Tensor) (stride : nat) :
  dim1 x < dim0 h -> tf_nn_conv1d x h stride VALID = None.
Proof.
  intros Hlt. unfold tf_nn_conv1d, conv1d_valid.
  rewrite (proj2 (Nat.leb_gt _ _) Hlt). now rewrite andb_false_r.
Qed.

(** * The pipeline on a single-batch, single-channel signal *)

Lemma length_tabulate (n0 n1 n2 : nat) (f : nat -> nat -> nat -> Z) :
  length (data (tabulate n0 n1 n2 f)) = n0 * n1 * n2.
Proof. apply tabulate_well_formed. Qed.

Lemma padded_len_streams (T d : nat) :
  1 <= d -> padded_len T d = stream_len T d * d.
Proof.
  intros Hd. unfold stream_len.
  pose proof (padded_length_multiple T d Hd) as Hm.
  fold (tail_padding T d) in Hm. fold (padded_len T d) in Hm.
  pose proof (Nat.div_mod (padded_len T d) d ltac:(lia)). lia.
Qed.

Lemma sample_out_of_range (x : Tensor) (T t : nat) :
  well_formed x -> shape x = (1, T, 1) -> T <= t -> sample x t = 0%Z.
Proof.
  intros Hwf Hsh Ht. destruct x as [n0 n1 n2 l].
  injection Hsh as -> -> ->.
  unfold well_formed, size in Hwf. simpl in Hwf.
  unfold sample, get, flat_index. simpl.
  apply nth_overflow. lia.
Qed.

(** Lines 134-137: stream [s] holds the samples [s, s + d, s + 2d, ...] of
    the signal, with zeros past its end. *)
Lemma subsample_streams (X : Tensor) (T d : nat) :
  well_formed X -> shape X = (1, T, 1) -> 1 <= d ->
  subsample (Z.of_nat T) (Z.of_nat d) X =
  Some (tabulate d (stream_len T d) 1 (fun s p _ => sample X (p * d + s))).
Proof.
  intros Hwf Hsh Hd.
  pose proof (fun t => sample_out_of_range X T t Hwf Hsh) as Hout.
  pose proof (padded_len_streams T d Hd) as HL.
  unfold subsample. rewrite pad_amount_nat by assumption. cbn [bind].
  rewrite tf_pad_right. cbn [bind].
  injection Hsh as H0 H1 H2. rewrite H0, H1, H2.
  fold (tail_padding T d). fold (padded_len T d).
  rewrite (tf_reshape_blocks _ (stream_len T d) d);
    [| assumption | rewrite length_tabulate; lia].
  cbn [bind].
  rewrite reshape_tabulate by lia.
  rewrite tf_transpose_102. cbn [bind dim0 dim1 dim2].
  rewrite (tf_reshape_streams _ (stream_len T d) d);
    [| assumption | rewrite length_tabulate; unfold tabulate; cbn [dim0 dim1 dim2]; lia].
  f_equal. apply tabulate_ext. intros s p k Hs Hp Hk.
  rewrite get_tabulate by assumption. cbv zeta.
  assert (Hidx : (p * d + s) * 1 + k = p * d + s) by lia.
  assert (Hlt : p * d + s < padded_len T d) by nia.
  rewrite Hidx, Nat.mul_1_r, Nat.div_1_r, Nat.mod_1_r.
  rewrite (Nat.div_small _ _ Hlt), (Nat.mod_small _ _ Hlt).
  destruct (Nat.ltb_spec (p * d + s) T) as [Hin | Hpast].
  - reflexivity.
  - symmetry. apply Hout. exact Hpast.
Qed.

Lemma dim0_tabulate (n0 n1 n2 : nat) (f : nat -> nat -> nat -> Z) :
  dim0 (tabulate n0 n1 n2 f) = n0.
Proof. reflexivity. Qed.

Lemma dim1_tabulate (n0 n1 n2 : nat) (f : nat -> nat -> nat -> Z) :
  dim1 (tabulate n0 n1 n2 f) = n1.
Proof. reflexivity. Qed.

Lemma dim2_tabulate (n0 n1 n2 : nat) (f : nat -> nat -> nat -> Z) :
  dim2 (tabulate n0 n1 n2 f) = n2.
Proof. reflexivity. Qed.

Lemma stream_len_pos (T d : nat) : 1 <= d -> 1 <= T -> 1 <= stream_len T d.
Proof.
  intros Hd HT. pose proof (padded_len_streams T d Hd) as HL.
  unfold padded_len in HL. destruct (stream_len T d); lia.
Qed.

(** Lines 144-146: sample [t] of the merged signal is local position
    [t / d] of stream [t mod d]. *)
Lemma undo_subsample_interleave (Y : Tensor) (d M : nat) :
  well_formed Y -> shape Y = (d, M, 1) -> 1 <= d ->
  undo_subsample (Z.of_nat d) Y =
  Some (tabulate 1 (M * d) 1 (fun _ t _ => get Y (t mod d) (t / d) 0)).
Proof.
  intros Hwf Hsh Hd. destruct Y as [n0 n1 n2 l].
  injection Hsh as -> -> ->.
  unfold well_formed, size in Hwf. simpl in Hwf.
  unfold undo_subsample.
  rewrite (tf_reshape_streams _ M d) by (simpl; lia).
  cbn [bind data]. rewrite tf_transpose_102. cbn [bind dim0 dim1 dim2].
  rewrite tf_reshape_single, length_tabulate.
  rewrite reshape_tabulate by lia.
  replace (M * d * 1) with (M * d) by lia.
  f_equal. apply tabulate_ext. intros i t k Hi Ht Hk.
  cbv zeta.
  replace ((i * (M * d) + t) * 1 + k) with t by lia.
  rewrite Nat.mul_1_r, Nat.div_1_r, Nat.mod_1_r.
  reflexivity.
Qed.

(** Cell 6 on any batch and channel count: output sample [(b, t, o)] sums
    the taps over the [filter_width] input samples that end at time [t]. *)
Lemma causal_conv_tabulate (X H : Tensor) (fw : nat) :
  nonempty_filter H = true ->
  dim0 H = fw -> dim2 X = dim1 H -> 1 <= fw -> 1 <= dim1 X ->
  causal_conv (Z.of_nat fw) X H =
  Some (tabulate (dim0 X) (dim1 X) (dim2 H)
          (fun b t o =>
             sum_n fw (fun k =>
               sum_n (dim1 H) (fun c =>
                 ((if (t + k <? fw - 1)%nat then 0
                   else get X b (t + k - (fw - 1))%nat c) * get H k c o)%Z)))).
Proof.
  intros Hne Hfw Hc H1 HT. unfold causal_conv.
  rewrite causal_pad_nat by assumption. cbn [bind].
  rewrite conv1d_valid_stride1;
    rewrite ?dim0_tabulate, ?dim1_tabulate, ?dim2_tabulate;
    [| assumption | assumption | lia].
  rewrite Hfw. replace (fw - 1 + dim1 X - fw + 1) with (dim1 X) by lia.
  f_equal. apply tabulate_ext. intros b t o Hb Ht Ho.
  apply sum_n_ext; intros k Hk. apply sum_n_ext; intros c Hcl.
  rewrite get_tabulate by lia. reflexivity.
Qed.

Lemma causal_conv_empty (X H : Tensor) (fw : nat) :
  dim0 H = fw -> 1 <= fw -> dim1 X = 0 ->
  causal_conv (Z.of_nat fw) X H = None.
Proof.
  intros Hfw H1 HT. unfold causal_conv.
  rewrite causal_pad_nat by assumption. cbn [bind].
  apply conv1d_valid_fails. rewrite dim1_tabulate. lia.
Qed.

Lemma dilated_causal_conv_steps (input_len filter_width dilation : Z)
  (X H : Tensor) :
  dilated_causal_conv input_len filter_width dilation X H =
  (S <- subsample input_len dilation X ;;
   Y <- causal_conv filter_width S H ;;
   undo_subsample dilation Y).
Proof.
  unfold dilated_causal_conv, causal_conv.
  destruct (subsample input_len dilation X) as [S |]; [| reflexivity].
  cbn [bind]. destruct (causal_pad filter_width S); reflexivity.
Qed.

Lemma dilated_causal_conv_tabulate (X H : Tensor) (T fw d : nat) :
  well_formed X -> shape X = (1, T, 1) -> shape H = (fw, 1, 1) ->
  1 <= T -> 1 <= fw -> 1 <= d ->
  dilated_causal_conv (Z.of_nat T) (Z.of_nat fw) (Z.of_nat d) X H =
  Some (tabulate 1 (padded_len T d) 1 (fun _ t _ => dilated_sum X H fw d t)).
Proof.
  intros Hwf HshX HshH HT Hfw Hd.
  pose proof (stream_len_pos T d Hd HT) as HM.
  pose proof (padded_len_streams T d Hd) as HL.
  pose proof (nonempty_filter_single H fw HshH Hfw) as Hne.
  injection HshH as Hh0 Hh1 Hh2.
  rewrite dilated_causal_conv_steps.
  rewrite (subsample_streams X T d) by assumption. cbn [bind].
  rewrite (causal_conv_tabulate _ H fw);
    rewrite ?dim0_tabulate, ?dim1_tabulate, ?dim2_tabulate;
    try lia; try exact Hne.
  cbn [bind]. rewrite Hh1, Hh2.
  rewrite (undo_subsample_interleave _ d (stream_len T d));
    [| apply tabulate_well_formed | reflexivity | assumption].
  rewrite <- HL. f_equal.
  apply tabulate_ext. intros i t k Hi Ht Hk.
  assert (Hs : t mod d < d) by (apply Nat.mod_upper_bound; lia).
  assert (Hp : t / d < stream_len T d)
    by (apply Nat.Div0.div_lt_upper_bound; lia).
  rewrite get_tabulate by lia.
  unfold dilated_sum. apply sum_n_ext. intros j Hj.
  cbn [sum_n]. rewrite Z.add_0_l. unfold tap. f_equal.
  destruct (Nat.ltb_spec (t / d + j) (fw - 1)) as [Hlt | Hge]; [reflexivity |].
  rewrite get_tabulate by lia. reflexivity.
Qed.

(** * The plain valid convolution (cell 4) *)

Lemma within_get (A : Z) (t : Tensor) (i j k : nat) :
  (0 <= A)%Z -> within A t = true -> (Z.abs (get t i j k) <= A)%Z.
Proof.
  intros HA Hw. unfold within in Hw. rewrite forallb_forall in Hw.
  unfold get.
  destruct (nth_in_or_default (flat_index t i j k) (data t) 0%Z) as [Hin | Hd].
  - apply Z.leb_le. now apply Hw.
  - rewrite Hd. exact HA.
Qed.

Lemma sum_n_abs_bound (n : nat) (f : nat -> Z) (M : Z) :
  (forall i, i < n -> (Z.abs (f i) <= M)%Z) ->
  (Z.abs (sum_n n f) <= Z.of_nat n * M)%Z.
Proof.
  induction n as [| n IH]; intros Hf; [simpl; lia |].
  cbn [sum_n].
  pose proof (Z.abs_triangle (sum_n n f) (f n)).
  pose proof (IH (fun i Hi => Hf i (Nat.lt_lt_succ_r _ _ Hi))).
  pose proof (Hf n (Nat.lt_succ_diag_r n)).
  lia.
Qed.

(** One output sample sums [window_size h] products, each of magnitude at
    most [A * B]. *)
Lemma window_sum_bound (x h : Tensor) (A B : Z) (g : nat -> nat -> Z)
  (o : nat) :
  (0 <= A)%Z -> (0 <= B)%Z -> within B h = true ->
  (forall k c, (Z.abs (g k c) <= A)%Z) ->
  (Z.abs (sum_n (dim0 h) (fun k =>
            sum_n (dim1 h) (fun c => (g k c * get h k c o)%Z)))
   <= window_size h * (A * B))%Z.
Proof.
  intros HA HB Hh Hg. unfold window_size.
  rewrite Nat2Z.inj_mul, <- Z.mul_assoc.
  apply sum_n_abs_bound. intros k _.
  apply sum_n_abs_bound. intros c _.
  rewrite Z.abs_mul.
  pose proof (within_get B h k c o HB Hh).
  pose proof (Hg k c).
  pose proof (Z.abs_nonneg (g k c)).
  pose proof (Z.abs_nonneg (get h k c o)).
  apply Z.mul_le_mono_nonneg; assumption.
Qed.




(** * The literal run of the notebook *)

(** C8.  On the signal [0, 1, ..., 7] and the all-ones filter of width 3,
    the non-dilated causal convolution of cell 6 (and the dilated one with
    dilation 1) returns [0, 1, 3, 6, 9, 12, 15, 18], and the dilated causal
    convolution of cell 8 with dilation 2 returns
    [0, 1, 2, 4, 6, 9, 12, 15]. *)
Theorem notebook_outputs :
  let X := mkTensor 1 8 1 [0; 1; 2; 3; 4; 5; 6; 7]%Z in
  let H := mkTensor 3 1 1 [1; 1; 1]%Z in
  make_X 8 = Some X /\
  make_H 3 = Some H /\
  causal_conv 3 X H =
    Some (mkTensor 1 8 1 [0; 1; 3; 6; 9; 12; 15; 18]%Z) /\
  dilated_causal_conv 8 3 1 X H =
    Some (mkTensor 1 8 1 [0; 1; 3; 6; 9; 12; 15; 18]%Z) /\
  dilated_causal_conv 8 3 2 X H =
    Some (mkTensor 1 8 1 [0; 1; 2; 4; 6; 9; 12; 15]%Z).
Proof. repeat split; vm_compute; reflexivity. Qed.

(** The plain valid convolution of cell 4 on the same data: six samples. *)
Example notebook_basic_conv :
  basic_conv (mkTensor 1 8 1 [0; 1; 2; 3; 4; 5; 6; 7]%Z)
             (mkTensor 3 1 1 [1; 1; 1]%Z) =
  Some (mkTensor 1 6 1 [3; 6; 9; 12; 15; 18]%Z).
Proof. vm_compute; reflexivity. Qed.

(** * Subsampling and its inverse (cell 8, lines 134-137 and 144-146) *)

Lemma sample_tabulate (n : nat) (f : nat -> nat -> nat -> Z) (t : nat) :
  sample (tabulate 1 n 1 f) t = if t <? n then f 0 t 0 else 0%Z.
Proof.
  unfold sample. destruct (Nat.ltb_spec t n) as [Hlt | Hge].
  - apply get_tabulate; lia.
  - unfold get, flat_index. rewrite dim1_tabulate, dim2_tabulate.
    apply nth_overflow. rewrite length_tabulate. lia.
Qed.

(** C6, as the code has it.  On a signal of batch size 1, time length [T]
    and one channel, and for a dilation [d >= 1], the subsampling step
    computes [pad_amount = (d - T mod d) mod d], pads the time axis on the
    right with that many zeros to a length [L'] that [d] divides, and returns
    [d] streams of time length [L' / d]; stream [s] holds, in order, the
    padded samples at times [s], [s + d], [s + 2d], ... *)
Theorem subsample_single_signal (X : Tensor) (T d : nat) :
  well_formed X -> shape X = (1, T, 1) -> 1 <= d ->
  let amount := (d - T mod d) mod d in
  exists padded S,
    pad_amount (Z.of_nat T) (Z.of_nat d) = Some (Z.of_nat amount) /\
    tf_pad X [(0, 0); (0, Z.of_nat amount); (0, 0)]%Z = Some padded /\
    shape padded = (1, T + amount, 1) /\
    (forall t, sample padded t = if t <? T then sample X t else 0%Z) /\
    (T + amount) mod d = 0 /\
    subsample (Z.of_nat T) (Z.of_nat d) X = Some S /\
    well_formed S /\
    shape S = (d, (T + amount) / d, 1) /\
    forall s p, s < d -> p < (T + amount) / d ->
                get S s p 0 = sample padded (p * d + s).
Proof.
  intros Hwf Hsh Hd amount.
  pose proof (padded_len_streams T d Hd) as HL.
  unfold stream_len, padded_len, tail_padding in HL. fold amount in HL.
  assert (Hpad : forall t,
             sample (tabulate 1 (T + amount) 1
                       (fun i j k => if j <? T then get X i j k else 0%Z)) t =
             if t <? T then sample X t else 0%Z).
  { intros t. rewrite sample_tabulate.
    destruct (Nat.ltb_spec t (T + amount)), (Nat.ltb_spec t T);
      try reflexivity; lia. }
  eexists. eexists.
  split; [now apply pad_amount_nat |].
  split; [rewrite tf_pad_right; reflexivity |].
  injection Hsh as H0 H1 H2. rewrite H0, H1, H2.
  split; [reflexivity |].
  split; [exact Hpad |].
  split; [now apply padded_length_multiple |].
  split; [apply subsample_streams; [assumption | unfold shape; congruence | assumption] |].
  split; [apply tabulate_well_formed |].
  split; [reflexivity |].
  intros s p Hs Hp. rewrite get_tabulate by (assumption || lia).
  rewrite Hpad.
  destruct (Nat.ltb_spec (p * d + s) T) as [Hin | Hpast]; [reflexivity |].
  apply (sample_out_of_range X T); [assumption | unfold shape; congruence | assumption].
Qed.

Lemma subsample_single_signal_witness :
  exists padded S,
    pad_amount 3 2 = Some 1%Z /\
    tf_pad (mkTensor 1 3 1 [5; 6; 7]%Z) [(0, 0); (0, 1); (0, 0)]%Z
      = Some padded /\
    shape padded = (1, 4, 1) /\
    (forall t, sample padded t =
               if t <? 3 then sample (mkTensor 1 3 1 [5; 6; 7]%Z) t else 0%Z) /\
    4 mod 2 = 0 /\
    subsample 3 2 (mkTensor 1 3 1 [5; 6; 7]%Z) = Some S /\
    well_formed S /\
    shape S = (2, 2, 1) /\
    forall s p, s < 2 -> p < 2 -> get S s p 0 = sample padded (p * 2 + s).
Proof.
  apply (subsample_single_signal (mkTensor 1 3 1 [5; 6; 7]%Z) 3 2);
    [reflexivity | reflexivity | lia].
Defined.

(** C6 as the specification words it fails on a signal with two channels
    and on a signal with two batch elements.  The reshape to
    [[-1, dilation, 1]] reads the whole buffer as one channel: the result
    has [d] streams whose time length is [B * L' * C / d], not [B * d]
    streams of time length [L' / d]. *)
Lemma subsample_shape_counterexample :
  let d := 2 in
  let T := 2 in
  let two_channels := mkTensor 1 T 2 [1; 2; 3; 4]%Z in
  let two_batches := mkTensor 2 T 1 [1; 2; 3; 4]%Z in
  (well_formed two_channels /\
   subsample (Z.of_nat T) (Z.of_nat d) two_channels
     = Some (mkTensor 2 2 1 [1; 3; 2; 4]%Z) /\
   ~ (exists S, subsample (Z.of_nat T) (Z.of_nat d) two_channels = Some S /\
                dim0 S = 1 * d /\
                dim1 S = (T + (d - T mod d) mod d) / d)) /\
  (well_formed two_batches /\
   subsample (Z.of_nat T) (Z.of_nat d) two_batches
     = Some (mkTensor 2 2 1 [1; 3; 2; 4]%Z) /\
   ~ (exists S, subsample (Z.of_nat T) (Z.of_nat d) two_batches = Some S /\
                dim0 S = 2 * d /\
                dim1 S = (T + (d - T mod d) mod d) / d)).
Proof.
  cbv zeta. split; (split; [reflexivity |]); (split; [reflexivity |]).
  - intros (S & HS & Hb & Ht).
    vm_compute in HS. injection HS as <-. discriminate Ht.
  - intros (S & HS & Hb & Ht).
    vm_compute in HS. injection HS as <-. discriminate Hb.
Qed.

(** C5, as the code has it.  On a signal of batch size 1 and one channel,
    undoing the subsampling right after the subsampling, with no
    computation in between, yields the signal right-padded with
    [pad_amount] zero time steps; the samples [s], [s + d], [s + 2d], ... of
    the merged signal are the local positions 0, 1, 2, ... of stream [s]. *)
Theorem undo_subsample_inverse (X : Tensor) (T d : nat) :
  well_formed X -> shape X = (1, T, 1) -> 1 <= d ->
  exists amount padded S merged,
    pad_amount (Z.of_nat T) (Z.of_nat d) = Some amount /\
    tf_pad X [(0, 0); (0, amount); (0, 0)]%Z = Some padded /\
    subsample (Z.of_nat T) (Z.of_nat d) X = Some S /\
    undo_subsample (Z.of_nat d) S = Some merged /\
    merged = padded /\
    forall s p, s < d -> p < dim1 S ->
                sample merged (p * d + s) = get S s p 0.
Proof.
  intros Hwf Hsh Hd.
  pose proof (padded_len_streams T d Hd) as HL.
  pose proof (fun t => sample_out_of_range X T t Hwf Hsh) as Hout.
  assert (Hmerged :
    tabulate 1 (stream_len T d * d) 1
      (fun _ t _ =>
         get (tabulate d (stream_len T d) 1
                (fun s p _ => sample X (p * d + s))) (t mod d) (t / d) 0) =
    tabulate 1 (padded_len T d) 1
      (fun i j k => if j <? T then get X i j k else 0%Z)).
  { rewrite <- HL. apply tabulate_ext. intros i t k Hi Ht Hk.
    assert (Hs : t mod d < d) by (apply Nat.mod_upper_bound; lia).
    assert (Hp : t / d < stream_len T d)
      by (apply Nat.Div0.div_lt_upper_bound; lia).
    rewrite get_tabulate by lia.
    replace (t / d * d + t mod d) with t
      by (pose proof (Nat.div_mod t d ltac:(lia)); lia).
    replace i with 0 by lia. replace k with 0 by lia.
    destruct (Nat.ltb_spec t T); [reflexivity | now apply Hout]. }
  exists (Z.of_nat (tail_padding T d)). do 3 eexists.
  split; [now apply pad_amount_nat |].
  split; [rewrite tf_pad_right; reflexivity |].
  split; [now apply subsample_streams |].
  split; [apply (undo_subsample_interleave _ d (stream_len T d));
          [apply tabulate_well_formed | reflexivity | assumption] |].
  injection Hsh as H0 H1 H2. rewrite H0, H1, H2.
  split; [exact Hmerged |].
  intros s p Hs Hp. rewrite dim1_tabulate in Hp.
  rewrite sample_tabulate.
  assert (Hlt : p * d + s < stream_len T d * d) by nia.
  rewrite (proj2 (Nat.ltb_lt _ _) Hlt).
  f_equal.
  - symmetry. apply Nat.mod_unique with (q := p); lia.
  - symmetry. apply Nat.div_unique with (r := s); lia.
Qed.

Lemma undo_subsample_inverse_witness :
  exists amount padded S merged,
    pad_amount 3 2 = Some amount /\
    tf_pad (mkTensor 1 3 1 [5; 6; 7]%Z) [(0, 0); (0, amount); (0, 0)]%Z
      = Some padded /\
    subsample 3 2 (mkTensor 1 3 1 [5; 6; 7]%Z) = Some S /\
    undo_subsample 2 S = Some merged /\
    merged = padded /\
    forall s p, s < 2 -> p < dim1 S ->
                sample merged (p * 2 + s) = get S s p 0.
Proof.
  apply (undo_subsample_inverse (mkTensor 1 3 1 [5; 6; 7]%Z) 3 2);
    [reflexivity | reflexivity | lia].
Defined.

(** C5 as the specification words it fails on a signal with two batch
    elements and on a signal with two channels.  The last reshape of
    cell 8, to [[1, -1, 1]], returns one single-channel signal whatever
    shape went in: the merged signal has the buffer of the right-padded
    signal but not its shape. *)
Lemma undo_subsample_shape_counterexample :
  let two_batches := mkTensor 2 2 1 [1; 2; 3; 4]%Z in
  let two_channels := mkTensor 1 2 2 [1; 2; 3; 4]%Z in
  let merged := mkTensor 1 4 1 [1; 2; 3; 4]%Z in
  pad_amount 2 2 = Some 0%Z /\
  (tf_pad two_batches [(0, 0); (0, 0); (0, 0)]%Z = Some two_batches /\
   (S <- subsample 2 2 two_batches ;; undo_subsample 2 S) = Some merged /\
   merged <> two_batches) /\
  (tf_pad two_channels [(0, 0); (0, 0); (0, 0)]%Z = Some two_channels /\
   (S <- subsample 2 2 two_channels ;; undo_subsample 2 S) = Some merged /\
   merged <> two_channels).
Proof.
  cbv zeta. repeat split; try (vm_compute; reflexivity); discriminate.
Qed.

(** * The dilated causal convolution (cell 8) *)

Lemma tail_padding_zero (T d : nat) :
  1 <= d -> (tail_padding T d = 0 <-> T mod d = 0).
Proof.
  intros Hd. unfold tail_padding.
  assert (Hr : T mod d < d) by (apply Nat.mod_upper_bound; lia).
  split; intros H.
  - destruct (Nat.eq_dec (T mod d) 0) as [E | E]; [exact E |].
    rewrite Nat.mod_small in H by lia. lia.
  - rewrite H, Nat.sub_0_r. apply Nat.Div0.mod_same.
Qed.

(** On an empty signal every stream is empty, the padded stream is shorter
    than the filter, and the valid convolution raises. *)
Lemma dilated_causal_conv_empty (X H : Tensor) (fw d : nat) :
  well_formed X -> shape X = (1, 0, 1) -> dim0 H = fw ->
  1 <= fw -> 1 <= d ->
  dilated_causal_conv 0 (Z.of_nat fw) (Z.of_nat d) X H = None.
Proof.
  intros Hwf Hsh HH Hfw Hd.
  rewrite dilated_causal_conv_steps.
  change 0%Z with (Z.of_nat 0).
  rewrite (subsample_streams X 0 d) by assumption. cbn [bind].
  rewrite causal_conv_empty; [reflexivity | assumption | assumption |].
  rewrite dim1_tabulate. unfold stream_len, padded_len, tail_padding.
  rewrite Nat.Div0.mod_0_l, Nat.sub_0_r, Nat.Div0.mod_same.
  now apply Nat.div_small.
Qed.

(** C1, as the code has it.  The code has no trim step: on a non-empty
    single-channel signal of time length [T] the pipeline (subsample, causal
    pad by [filter_width - 1], valid convolution, undo the subsampling)
    returns a signal of time length [T + (d - T mod d) mod d], the input
    length rounded up to a multiple of [d]; that is [T] exactly when [d]
    divides [T]. *)
Theorem dilated_causal_conv_length (X H : Tensor) (T fw d : nat) :
  well_formed X -> shape X = (1, T, 1) -> shape H = (fw, 1, 1) ->
  1 <= T -> 1 <= fw -> 1 <= d ->
  exists Y,
    dilated_causal_conv (Z.of_nat T) (Z.of_nat fw) (Z.of_nat d) X H = Some Y /\
    well_formed Y /\
    shape Y = (1, T + (d - T mod d) mod d, 1) /\
    (dim1 Y = T <-> T mod d = 0).
Proof.
  intros Hwf HshX HshH HT Hfw Hd.
  eexists. split; [now apply dilated_causal_conv_tabulate |].
  split; [apply tabulate_well_formed |].
  split; [reflexivity |].
  rewrite dim1_tabulate. unfold padded_len.
  pose proof (tail_padding_zero T d Hd). lia.
Qed.

Lemma dilated_causal_conv_length_witness :
  exists Y,
    dilated_causal_conv 3 2 2 (mkTensor 1 3 1 [1; 2; 3]%Z)
      (mkTensor 2 1 1 [1; 1]%Z) = Some Y /\
    well_formed Y /\
    shape Y = (1, 4, 1) /\
    (dim1 Y = 3 <-> 3 mod 2 = 0).
Proof.
  apply (dilated_causal_conv_length
           (mkTensor 1 3 1 [1; 2; 3]%Z) (mkTensor 2 1 1 [1; 1]%Z) 3 2 2);
    (reflexivity || lia).
Defined.

(** C1 as the specification words it fails when [d] does not divide the
    time length: three samples in, four samples out. *)
Lemma dilated_length_counterexample :
  let X := mkTensor 1 3 1 [1; 2; 3]%Z in
  let H := mkTensor 2 1 1 [1; 1]%Z in
  dilated_causal_conv 3 2 2 X H = Some (mkTensor 1 4 1 [1; 2; 4; 2]%Z) /\
  ~ (exists Y, dilated_causal_conv 3 2 2 X H = Some Y /\ dim1 Y = dim1 X).
Proof.
  cbv zeta. split; [vm_compute; reflexivity |].
  intros (Y & HY & Hlen). vm_compute in HY. injection HY as <-.
  discriminate Hlen.
Qed.

Lemma sampled_signal (X : Tensor) (T : nat) :
  well_formed X -> shape X = (1, T, 1) ->
  tabulate 1 T 1 (fun _ t _ => sample X t) = X.
Proof.
  intros Hwf Hsh. destruct X as [n0 n1 n2 l].
  injection Hsh as -> -> ->.
  transitivity (tabulate 1 T 1 (get (mkTensor 1 T 1 l))).
  - apply tabulate_ext. intros i t k Hi Ht Hk.
    unfold sample. replace i with 0 by lia. replace k with 0 by lia.
    reflexivity.
  - symmetry. apply (tensor_eta (mkTensor 1 T 1 l) Hwf).
Qed.

(** C9, as the code has it.  With a filter of width 1 whose single tap is
    1, the dilated causal convolution of a non-empty single-channel signal
    returns the signal right-padded with [pad_amount] zeros; it returns the
    signal itself when [d] divides its time length. *)
Theorem identity_filter_pads (X H : Tensor) (T d : nat) :
  well_formed X -> shape X = (1, T, 1) ->
  shape H = (1, 1, 1) -> tap H 0 = 1%Z ->
  1 <= T -> 1 <= d ->
  dilated_causal_conv (Z.of_nat T) 1 (Z.of_nat d) X H =
    tf_pad X [(0, 0); (0, Z.of_nat ((d - T mod d) mod d)); (0, 0)]%Z /\
  (T mod d = 0 ->
   dilated_causal_conv (Z.of_nat T) 1 (Z.of_nat d) X H = Some X).
Proof.
  intros Hwf HshX HshH Htap HT Hd.
  pose proof (fun t => sample_out_of_range X T t Hwf HshX) as Hout.
  assert (Hsum : forall t, dilated_sum X H 1 d t = sample X t).
  { intros t. unfold dilated_sum. cbn [sum_n].
    rewrite Htap, Nat.add_0_r, Nat.sub_0_r.
    replace (t / d * d + t mod d) with t
      by (pose proof (Nat.div_mod t d ltac:(lia)); lia).
    cbn [Nat.sub Nat.ltb Nat.leb]. lia. }
  assert (Hrun :
    dilated_causal_conv (Z.of_nat T) 1 (Z.of_nat d) X H =
    Some (tabulate 1 (padded_len T d) 1 (fun _ t _ => sample X t))).
  { change 1%Z with (Z.of_nat 1) at 1.
    rewrite (dilated_causal_conv_tabulate X H T 1 d) by (assumption || lia).
    f_equal. apply tabulate_ext. intros; apply Hsum. }
  split.
  - rewrite Hrun, tf_pad_right. f_equal.
    injection HshX as H0 H1 H2. rewrite H0, H1, H2.
    apply tabulate_ext. intros i t k Hi Ht Hk.
    replace i with 0 by lia. replace k with 0 by lia.
    destruct (Nat.ltb_spec t T); [reflexivity | now apply Hout].
  - intros Hdiv. rewrite Hrun. f_equal.
    unfold padded_len.
    rewrite (proj2 (tail_padding_zero T d Hd) Hdiv), Nat.add_0_r.
    now apply sampled_signal.
Qed.

Lemma identity_filter_pads_witness :
  dilated_causal_conv 4 1 2 (mkTensor 1 4 1 [5; 6; 7; 8]%Z)
    (mkTensor 1 1 1 [1]%Z) =
    tf_pad (mkTensor 1 4 1 [5; 6; 7; 8]%Z) [(0, 0); (0, 0); (0, 0)]%Z /\
  (4 mod 2 = 0 ->
   dilated_causal_conv 4 1 2 (mkTensor 1 4 1 [5; 6; 7; 8]%Z)
     (mkTensor 1 1 1 [1]%Z) = Some (mkTensor 1 4 1 [5; 6; 7; 8]%Z)).
Proof.
  apply (identity_filter_pads
           (mkTensor 1 4 1 [5; 6; 7; 8]%Z) (mkTensor 1 1 1 [1]%Z) 4 2);
    (reflexivity || lia).
Defined.

(** C9 as the specification words it fails when [d] does not divide the
    time length: the output carries the zero appended by the subsampling. *)
Lemma identity_filter_counterexample :
  let X := mkTensor 1 3 1 [5; 6; 7]%Z in
  let H := mkTensor 1 1 1 [1]%Z in
  dilated_causal_conv 3 1 2 X H = Some (mkTensor 1 4 1 [5; 6; 7; 0]%Z) /\
  dilated_causal_conv 3 1 2 X H <> Some X.
Proof.
  cbv zeta. split; [vm_compute; reflexivity |].
  vm_compute. discriminate.
Qed.

Lemma causal_conv_shape (fw : Z) (X H Y : Tensor) :
  causal_conv fw X H = Some Y ->
  well_formed Y /\ dim0 Y = dim0 X /\ dim2 Y = dim2 H.
Proof.
  unfold causal_conv, causal_pad, tf_pad.
  destruct (forallb nonneg [0; 0; fw - 1; 0; 0; 0]%Z); [| discriminate].
  cbn [bind]. unfold tf_nn_conv1d, conv1d_valid.
  rewrite dim0_tabulate, dim1_tabulate, dim2_tabulate.
  match goal with |- (if ?c then _ else _) = _ -> _ => destruct c end;
    [| discriminate].
  intros E. injection E as <-.
  split; [apply tabulate_well_formed |].
  rewrite dim0_tabulate, dim2_tabulate. cbn [Z.to_nat]. lia.
Qed.

Lemma subsample_dilation_one (X : Tensor) (T : nat) :
  well_formed X -> shape X = (1, T, 1) ->
  subsample (Z.of_nat T) 1 X = Some X.
Proof.
  intros Hwf Hsh. change 1%Z with (Z.of_nat 1).
  rewrite (subsample_streams X T 1) by (assumption || lia).
  f_equal.
  assert (HM : stream_len T 1 = T).
  { unfold stream_len, padded_len, tail_padding.
    rewrite !Nat.mod_1_r, Nat.div_1_r. cbn [Nat.sub]. lia. }
  rewrite HM.
  transitivity (tabulate 1 T 1 (fun _ t _ => sample X t));
    [| now apply sampled_signal].
  apply tabulate_ext. intros s p k Hs Hp Hk.
  f_equal. lia.
Qed.

Lemma undo_subsample_dilation_one (Y : Tensor) :
  well_formed Y -> dim0 Y = 1 -> dim2 Y = 1 ->
  undo_subsample 1 Y = Some Y.
Proof.
  intros Hwf H0 H2.
  assert (Hsh : shape Y = (1, dim1 Y, 1)) by (unfold shape; congruence).
  change 1%Z with (Z.of_nat 1).
  rewrite (undo_subsample_interleave Y 1 (dim1 Y)) by (assumption || lia).
  f_equal. rewrite Nat.mul_1_r.
  transitivity (tabulate 1 (dim1 Y) 1 (fun _ t _ => sample Y t));
    [| now apply sampled_signal].
  apply tabulate_ext. intros i t k Hi Ht Hk.
  rewrite Nat.mod_1_r, Nat.div_1_r. reflexivity.
Qed.

(** C4, as the code has it.  On a signal of batch size 1 and one channel
    and with a filter of one output channel, the dilated causal convolution
    of cell 8 with dilation rate 1 returns exactly what the causal
    convolution of cell 6 returns (the valid convolution of the signal
    left-padded by [filter_width - 1]): the pad amount is 0, and the
    subsampling and its inverse are identities. *)
Theorem dilation_one_is_causal_conv (X H : Tensor) (T : nat) (fw : Z) :
  well_formed X -> shape X = (1, T, 1) -> dim2 H = 1 ->
  dilated_causal_conv (Z.of_nat T) fw 1 X H = causal_conv fw X H /\
  pad_amount (Z.of_nat T) 1 = Some 0%Z /\
  subsample (Z.of_nat T) 1 X = Some X /\
  (forall Y, causal_conv fw X H = Some Y -> undo_subsample 1 Y = Some Y).
Proof.
  intros Hwf Hsh HO.
  assert (Hundo : forall Y, causal_conv fw X H = Some Y ->
                            undo_subsample 1 Y = Some Y).
  { intros Y HY. apply causal_conv_shape in HY as (HwfY & H0 & H2).
    apply undo_subsample_dilation_one; [assumption | | congruence].
    injection Hsh as HX0 _ _. congruence. }
  split; [| split; [| split]].
  - rewrite dilated_causal_conv_steps.
    rewrite subsample_dilation_one by assumption. cbn [bind].
    destruct (causal_conv fw X H) as [Y |] eqn:HY; [| reflexivity].
    cbn [bind]. now apply Hundo.
  - change 1%Z with (Z.of_nat 1). rewrite pad_amount_nat by lia.
    now rewrite Nat.mod_1_r.
  - now apply subsample_dilation_one.
  - exact Hundo.
Qed.

Lemma dilation_one_is_causal_conv_witness :
  let X := mkTensor 1 4 1 [5; 6; 7; 8]%Z in
  let H := mkTensor 3 1 1 [1; 2; 3]%Z in
  dilated_causal_conv 4 3 1 X H = causal_conv 3 X H /\
  pad_amount 4 1 = Some 0%Z /\
  subsample 4 1 X = Some X /\
  (forall Y, causal_conv 3 X H = Some Y -> undo_subsample 1 Y = Some Y).
Proof.
  intros X H.
  apply (dilation_one_is_causal_conv X H 4 3); reflexivity.
Defined.

(** C4 as the specification words it fails on a signal with two batch
    elements: cell 8 lays them end to end, returns one signal of four
    samples, and its filter reaches from the second element back into the
    first (the 5), where cell 6 convolves each element on its own. *)
Lemma dilation_one_batch_counterexample :
  let X := mkTensor 2 2 1 [1; 2; 3; 4]%Z in
  let H := mkTensor 2 1 1 [1; 1]%Z in
  dilated_causal_conv 2 2 1 X H = Some (mkTensor 1 4 1 [1; 3; 5; 7]%Z) /\
  causal_conv 2 X H = Some (mkTensor 2 2 1 [1; 3; 3; 7]%Z) /\
  dilated_causal_conv 2 2 1 X H <> causal_conv 2 X H.
Proof.
  cbv zeta. repeat split; try (vm_compute; reflexivity).
  vm_compute. discriminate.
Qed.

Lemma causal_conv_samples (X H : Tensor) (T fw : nat) :
  shape X = (1, T, 1) -> shape H = (fw, 1, 1) -> 1 <= T -> 1 <= fw ->
  causal_conv (Z.of_nat fw) X H =
  Some (tabulate 1 T 1 (fun _ t _ => causal_sum X H fw t)).
Proof.
  intros HshX HshH HT Hfw.
  pose proof (nonempty_filter_single H fw HshH Hfw) as Hne.
  injection HshX as HX0 HX1 HX2. injection HshH as HH0 HH1 HH2.
  rewrite (causal_conv_tabulate X H fw) by (assumption || lia).
  rewrite HX0, HX1, HH1, HH2. f_equal.
  apply tabulate_ext. intros b t o Hb Ht Ho.
  replace b with 0 by lia. replace o with 0 by lia.
  unfold causal_sum. apply sum_n_ext. intros k Hk.
  cbn [sum_n]. rewrite Z.add_0_l. reflexivity.
Qed.

Lemma causal_sum_past (X X' H : Tensor) (fw t u : nat) :
  (forall v, v <= t -> sample X v = sample X' v) ->
  u <= t -> causal_sum X H fw u = causal_sum X' H fw u.
Proof.
  intros Hagree Hu. unfold causal_sum. apply sum_n_ext. intros k Hk.
  destruct (Nat.ltb_spec (u + k) (fw - 1)); [reflexivity |].
  rewrite Hagree by lia. reflexivity.
Qed.

Lemma dilated_sum_past (X X' H : Tensor) (fw d t u : nat) :
  1 <= d ->
  (forall v, v <= t -> sample X v = sample X' v) ->
  u <= t -> dilated_sum X H fw d u = dilated_sum X' H fw d u.
Proof.
  intros Hd Hagree Hu. unfold dilated_sum. apply sum_n_ext. intros k Hk.
  destruct (Nat.ltb_spec (u / d + k) (fw - 1)); [reflexivity |].
  rewrite Hagree; [reflexivity |].
  pose proof (Nat.div_mod u d ltac:(lia)).
  assert ((u / d + k - (fw - 1)) * d <= u / d * d)
    by (apply Nat.mul_le_mono_r; lia).
  lia.
Qed.

(** C3.  If two signals agree at every time index up to [t], the outputs of
    the non-dilated causal convolution agree at every index up to [t], and
    so do the outputs of the dilated causal convolution: samples after [t]
    never reach an output sample at or before [t]. *)
Theorem future_samples_do_not_matter (X X' H : Tensor) (T fw d t : nat) :
  well_formed X -> well_formed X' ->
  shape X = (1, T, 1) -> shape X' = (1, T, 1) -> shape H = (fw, 1, 1) ->
  1 <= T -> 1 <= fw -> 1 <= d ->
  (forall u, u <= t -> sample X u = sample X' u) ->
  exists Y Y' D D',
    causal_conv (Z.of_nat fw) X H = Some Y /\
    causal_conv (Z.of_nat fw) X' H = Some Y' /\
    dilated_causal_conv (Z.of_nat T) (Z.of_nat fw) (Z.of_nat d) X H = Some D /\
    dilated_causal_conv (Z.of_nat T) (Z.of_nat fw) (Z.of_nat d) X' H = Some D' /\
    forall u, u <= t ->
              sample Y u = sample Y' u /\ sample D u = sample D' u.
Proof.
  intros Hwf Hwf' Hsh Hsh' HshH HT Hfw Hd Hagree.
  do 4 eexists.
  split; [now apply (causal_conv_samples X H T fw) |].
  split; [now apply (causal_conv_samples X' H T fw) |].
  split; [now apply (dilated_causal_conv_tabulate X H T fw d) |].
  split; [now apply (dilated_causal_conv_tabulate X' H T fw d) |].
  intros u Hu. rewrite !sample_tabulate.
  rewrite (causal_sum_past X X' H fw t u Hagree Hu).
  rewrite (dilated_sum_past X X' H fw d t u Hd Hagree Hu).
  split; reflexivity.
Qed.

Lemma future_samples_do_not_matter_witness :
  let X := mkTensor 1 5 1 [1; 2; 3; 4; 5]%Z in
  let X' := mkTensor 1 5 1 [1; 2; 3; 40; 50]%Z in
  let H := mkTensor 2 1 1 [1; 1]%Z in
  (forall u, u <= 2 -> sample X u = sample X' u) /\
  exists Y Y' D D',
    causal_conv 2 X H = Some Y /\
    causal_conv 2 X' H = Some Y' /\
    dilated_causal_conv 5 2 2 X H = Some D /\
    dilated_causal_conv 5 2 2 X' H = Some D' /\
    forall u, u <= 2 ->
              sample Y u = sample Y' u /\ sample D u = sample D' u.
Proof.
  intros X X' H.
  assert (Hagree : forall u, u <= 2 -> sample X u = sample X' u).
  { intros u Hu.
    destruct u as [| [| [| u]]]; [reflexivity | reflexivity | reflexivity | lia]. }
  split; [exact Hagree |].
  apply (future_samples_do_not_matter X X' H 5 2 2 2);
    solve [reflexivity | lia | exact Hagree].
Defined.

(** * The pipeline against the zero-interleaved filter *)

(** A sum whose terms vanish off the multiples of [d] keeps one term per
    multiple. *)
Lemma sum_n_sparse (d n : nat) (F : nat -> Z) :
  1 <= d ->
  (forall j, j mod d <> 0 -> F j = 0%Z) ->
  sum_n (n * d + 1) F = sum_n (S n) (fun k => F (k * d)).
Proof.
  intros Hd Hzero. induction n as [| n IH]; [reflexivity |].
  replace (S n * d + 1) with ((n * d + 1) + ((d - 1) + 1)) by lia.
  rewrite sum_n_app, IH, sum_n_app.
  rewrite (sum_n_zero (d - 1)).
  - cbn [sum_n]. rewrite Nat.add_0_r.
    replace (n * d + 1 + (d - 1)) with (S n * d) by lia. lia.
  - intros i Hi. apply Hzero.
    replace (n * d + 1 + i) with (S i + n * d) by lia.
    rewrite Nat.Div0.mod_add, Nat.mod_small by lia. lia.
Qed.

Lemma dilated_tap_index (d fw t k : nat) :
  1 <= d -> k < fw ->
  (t + k * d <? (fw - 1) * d) = (t / d + k <? fw - 1) /\
  (fw - 1 <= t / d + k ->
   t + k * d - (fw - 1) * d = (t / d + k - (fw - 1)) * d + t mod d).
Proof.
  intros Hd Hk.
  pose proof (Nat.div_mod t d ltac:(lia)) as Ht.
  assert (Hr : t mod d < d) by (apply Nat.mod_upper_bound; lia).
  split.
  - destruct (Nat.ltb_spec (t / d + k) (fw - 1)) as [Hlt | Hge].
    + apply Nat.ltb_lt.
      assert (S (t / d + k) * d <= (fw - 1) * d)
        by (apply Nat.mul_le_mono_r; lia).
      lia.
    + apply Nat.ltb_ge.
      assert ((fw - 1) * d <= (t / d + k) * d)
        by (apply Nat.mul_le_mono_r; lia).
      lia.
  - intros Hge.
    remember (t / d + k - (fw - 1)) as q eqn:Hq.
    remember (fw - 1) as m eqn:Hm.
    assert (E : t / d + k = q + m) by lia.
    assert (E2 : (t / d + k) * d = q * d + m * d) by (rewrite E; lia).
    lia.
Qed.

Lemma causal_sum_dilate_filter (X H : Tensor) (fw d t : nat) :
  shape H = (fw, 1, 1) -> 1 <= fw -> 1 <= d ->
  causal_sum X (dilate_filter H d) ((fw - 1) * d + 1) t =
  dilated_sum X H fw d t.
Proof.
  intros HshH Hfw Hd. injection HshH as H0 H1 H2.
  unfold causal_sum, dilated_sum.
  assert (Htap : forall j, j < (fw - 1) * d + 1 ->
            tap (dilate_filter H d) j =
            if j mod d =? 0 then tap H (j / d) else 0%Z).
  { intros j Hj. unfold tap, dilate_filter.
    rewrite H0, H1, H2. rewrite get_tabulate by lia. reflexivity. }
  transitivity
    (sum_n ((fw - 1) * d + 1) (fun j =>
       if j mod d =? 0
       then Z.mul (if t + j <? (fw - 1) * d + 1 - 1 then 0%Z
                   else sample X (t + j - ((fw - 1) * d + 1 - 1)))
                  (tap H (j / d))
       else 0%Z)).
  { apply sum_n_ext. intros j Hj. rewrite Htap by assumption.
    destruct (j mod d =? 0); lia. }
  rewrite sum_n_sparse.
  - replace (S (fw - 1)) with fw by lia.
    apply sum_n_ext. intros k Hk.
    rewrite Nat.Div0.mod_mul, Nat.div_mul by lia. cbn [Nat.eqb].
    rewrite Nat.add_sub.
    destruct (dilated_tap_index d fw t k Hd Hk) as [Hcond Hidx].
    rewrite Hcond.
    destruct (Nat.ltb_spec (t / d + k) (fw - 1)) as [Hlt | Hge];
      [reflexivity |].
    rewrite Hidx by assumption. reflexivity.
  - assumption.
  - intros j Hj. destruct (Nat.eqb_spec (j mod d) 0); [contradiction |].
    reflexivity.
Qed.

Lemma naive_dilated_samples (X H : Tensor) (N fw d : nat) :
  shape X = (1, N, 1) -> shape H = (fw, 1, 1) ->
  1 <= N -> 1 <= fw -> 1 <= d ->
  naive_dilated_causal_conv d X H =
  Some (tabulate 1 N 1 (fun _ t _ => dilated_sum X H fw d t)).
Proof.
  intros HshX HshH HN Hfw Hd.
  unfold naive_dilated_causal_conv. cbv zeta.
  assert (Hsh : shape (dilate_filter H d) = ((fw - 1) * d + 1, 1, 1)).
  { injection HshH as H0 H1 H2. unfold dilate_filter, shape.
    rewrite dim0_tabulate, dim1_tabulate, dim2_tabulate. congruence. }
  assert (HW : dim0 (dilate_filter H d) = (fw - 1) * d + 1)
    by (injection Hsh as E _ _; exact E).
  rewrite HW.
  rewrite (causal_conv_samples X (dilate_filter H d) N ((fw - 1) * d + 1))
    by (assumption || nia).
  f_equal. apply tabulate_ext. intros i t k _ _ _.
  now apply causal_sum_dilate_filter.
Qed.

Lemma right_padded_samples (X : Tensor) (T P t : nat) :
  well_formed X -> shape X = (1, T, 1) ->
  sample (tabulate 1 (T + P) 1
            (fun i j k => if j <? T then get X i j k else 0%Z)) t =
  sample X t.
Proof.
  intros Hwf Hsh. rewrite sample_tabulate.
  destruct (Nat.ltb_spec t (T + P)), (Nat.ltb_spec t T);
    try reflexivity; try lia;
    symmetry; apply (sample_out_of_range X T); assumption || lia.
Qed.

Lemma dilated_sum_reference (X H : Tensor) (fw d t : nat) :
  1 <= d -> dilated_sum X H fw d t = dilated_reference X H fw d t.
Proof.
  intros Hd. unfold dilated_sum, dilated_reference.
  apply sum_n_ext. intros k Hk.
  pose proof (Nat.div_mod t d ltac:(lia)) as Ht.
  assert (Hr : t mod d < d) by (apply Nat.mod_upper_bound; lia).
  remember (fw - 1 - k) as m eqn:Hm.
  remember (t / d) as q eqn:Hq.
  destruct (Nat.ltb_spec (q + k) (fw - 1)) as [Hlt | Hge].
  - assert (Hqm : S q <= m) by lia.
    assert (S q * d <= m * d) by (apply Nat.mul_le_mono_r; exact Hqm).
    destruct (Nat.leb_spec (m * d) t); [lia | lia].
  - assert (Hqm : m <= q) by lia.
    assert (Hmd : m * d <= q * d) by (apply Nat.mul_le_mono_r; exact Hqm).
    destruct (Nat.leb_spec (m * d) t); [| lia].
    replace (q + k - (fw - 1)) with (q - m) by lia.
    assert (E : (q - m) * d = q * d - m * d)
      by (rewrite Nat.mul_sub_distr_r; reflexivity).
    replace ((q - m) * d + t mod d) with (t - m * d) by lia.
    lia.
Qed.

Lemma dilated_reference_bound (X H : Tensor) (fw d t : nat) (A B : Z) :
  within A X = true -> within B H = true ->
  (0 <= A)%Z -> (0 <= B)%Z ->
  (Z.abs (dilated_reference X H fw d t) <= Z.of_nat fw * (A * B))%Z.
Proof.
  intros HX HH HA HB. unfold dilated_reference.
  apply sum_n_abs_bound. intros k _. rewrite Z.abs_mul.
  pose proof (within_get B H k 0 0 HB HH) as Htap. fold (tap H k) in Htap.
  pose proof (Z.abs_nonneg (tap H k)).
  rewrite (Z.mul_comm A B).
  apply Z.mul_le_mono_nonneg; try assumption; [apply Z.abs_nonneg |].
  destruct ((fw - 1 - k) * d <=? t); [| simpl; exact HA].
  now apply within_get.
Qed.

(** C2, as the code has it.  On a non-empty signal of batch size 1 and one
    channel and with a filter of one input and one output channel, the
    subsample-convolve-interleave pipeline computes the causal convolution
    with the zero-interleaved filter: for every phase [s < d] and local
    position [p], the output sample at time [p * d + s] is the sample at
    that time of the cell-6 causal convolution run with the filter whose
    taps are [d] apart.  On the times of the input the naive convolution is
    taken of the input itself; on all the times the pipeline produces it is
    taken of the right-padded input, and there the two outputs are the same
    tensor, of shape [(1, T + pad_amount, 1)].  While the samples and taps
    are integers of magnitude at most [A] and [B] with
    [filter_width * A * B <= 2 ^ 24], so that float32 is exact, output
    sample [t] is the written-out sum of [tap k] times the sample
    [(filter_width - 1 - k) * d] steps before [t]. *)
Theorem polyphase_equals_dilated_filter (X H : Tensor) (T fw d : nat) :
  well_formed X -> shape X = (1, T, 1) -> shape H = (fw, 1, 1) ->
  1 <= T -> 1 <= fw -> 1 <= d ->
  let amount := (d - T mod d) mod d in
  exists D N padded N',
    dilated_causal_conv (Z.of_nat T) (Z.of_nat fw) (Z.of_nat d) X H = Some D /\
    well_formed D /\
    shape D = (1, T + amount, 1) /\
    naive_dilated_causal_conv d X H = Some N /\
    shape N = (1, T, 1) /\
    (forall s p, s < d -> p * d + s < T ->
                 sample D (p * d + s) = sample N (p * d + s)) /\
    tf_pad X [(0, 0); (0, Z.of_nat amount); (0, 0)]%Z = Some padded /\
    naive_dilated_causal_conv d padded H = Some N' /\
    (forall s p, s < d -> p < (T + amount) / d ->
                 sample D (p * d + s) = sample N' (p * d + s)) /\
    D = N' /\
    (forall A B,
       within A X = true -> within B H = true ->
       (0 <= A <= f32_int_limit)%Z -> (0 <= B <= f32_int_limit)%Z ->
       (Z.of_nat fw * (A * B) <= f32_int_limit)%Z ->
       forall t, t < T + amount ->
         sample D t = dilated_reference X H fw d t /\
         (Z.abs (sample D t) <= f32_int_limit)%Z).
Proof.
  intros Hwf HshX HshH HT Hfw Hd amount.
  set (padded := tabulate 1 (T + amount) 1
                   (fun i j k => if j <? T then get X i j k else 0%Z)).
  assert (Hpadded : tf_pad X [(0, 0); (0, Z.of_nat amount); (0, 0)]%Z
                    = Some padded).
  { rewrite tf_pad_right. injection HshX as H0 H1 H2.
    now rewrite H0, H1, H2. }
  assert (Hsame : tabulate 1 (padded_len T d) 1
                    (fun _ t _ => dilated_sum X H fw d t) =
                  tabulate 1 (T + amount) 1
                    (fun _ t _ => dilated_sum padded H fw d t)).
  { apply tabulate_ext. intros i t k _ _ _.
    apply (dilated_sum_past X padded H fw d t t Hd); [| lia].
    intros v _. symmetry. now apply right_padded_samples. }
  exists (tabulate 1 (padded_len T d) 1 (fun _ t _ => dilated_sum X H fw d t)).
  exists (tabulate 1 T 1 (fun _ t _ => dilated_sum X H fw d t)).
  exists padded.
  exists (tabulate 1 (T + amount) 1 (fun _ t _ => dilated_sum padded H fw d t)).
  split; [now apply dilated_causal_conv_tabulate |].
  split; [apply tabulate_well_formed |].
  split; [reflexivity |].
  split; [now apply naive_dilated_samples |].
  split; [reflexivity |].
  split.
  { intros s p Hs Hp. rewrite !sample_tabulate.
    assert (Hlt : p * d + s < padded_len T d) by (unfold padded_len; lia).
    rewrite (proj2 (Nat.ltb_lt _ _) Hp), (proj2 (Nat.ltb_lt _ _) Hlt).
    reflexivity. }
  split; [exact Hpadded |].
  split; [apply naive_dilated_samples; (reflexivity || assumption || lia) |].
  split; [intros s p Hs Hp; now rewrite Hsame |].
  split; [exact Hsame |].
  intros A B HX HH [HA _] [HB _] Hlim t Ht.
  rewrite sample_tabulate.
  assert (Hlt : t < padded_len T d) by exact Ht.
  rewrite (proj2 (Nat.ltb_lt _ _) Hlt).
  rewrite dilated_sum_reference by assumption.
  split; [reflexivity |].
  eapply Z.le_trans; [| exact Hlim].
  now apply dilated_reference_bound.
Qed.

Lemma polyphase_equals_dilated_filter_witness :
  let X := mkTensor 1 5 1 [1; 2; 3; 4; 5]%Z in
  let H := mkTensor 3 1 1 [1; 10; 100]%Z in
  exists D N padded N',
    dilated_causal_conv 5 3 2 X H = Some D /\
    well_formed D /\
    shape D = (1, 6, 1) /\
    naive_dilated_causal_conv 2 X H = Some N /\
    shape N = (1, 5, 1) /\
    (forall s p, s < 2 -> p * 2 + s < 5 ->
                 sample D (p * 2 + s) = sample N (p * 2 + s)) /\
    tf_pad X [(0, 0); (0, 1); (0, 0)]%Z = Some padded /\
    naive_dilated_causal_conv 2 padded H = Some N' /\
    (forall s p, s < 2 -> p < 3 ->
                 sample D (p * 2 + s) = sample N' (p * 2 + s)) /\
    D = N' /\
    (forall t, t < 6 ->
       sample D t = dilated_reference X H 3 2 t /\
       (Z.abs (sample D t) <= f32_int_limit)%Z).
Proof.
  intros X H.
  destruct (polyphase_equals_dilated_filter X H 5 3 2)
    as (D & N & padded & N' & H1 & H2 & H3 & H4 & H5 & H6 & H7 & H8 & H9
        & H10 & H11);
    try reflexivity; try lia.
  exists D, N, padded, N'.
  repeat (split; [assumption |]).
  apply (H11 5%Z 100%Z);
    solve [reflexivity | unfold f32_int_limit; simpl; lia].
Defined.

(** C2 as the specification words it fails on a signal with two batch
    elements.  The pipeline lays them end to end and returns one signal of
    four samples, in which the filter reaches from the second element back
    into the first; the causal convolution with the zero-interleaved filter
    keeps the two elements apart.  At the first sample of the second
    element the former holds 4, the latter 3. *)
Lemma polyphase_batch_counterexample :
  let X := mkTensor 2 2 1 [1; 2; 3; 4]%Z in
  let H := mkTensor 2 1 1 [1; 1]%Z in
  let D := mkTensor 1 4 1 [1; 2; 4; 6]%Z in
  let N := mkTensor 2 2 1 [1; 2; 3; 4]%Z in
  dilated_causal_conv 2 2 2 X H = Some D /\
  naive_dilated_causal_conv 2 X H = Some N /\
  D <> N /\
  nth 2 (data D) 0%Z = 4%Z /\
  get N 1 0 0 = 3%Z.
Proof.
  cbv zeta. repeat split; try (vm_compute; reflexivity). discriminate.
Qed.

(** * Linearity *)

Lemma length_zip_with (f : Z -> Z -> Z) (u v : list Z) :
  length u = length v -> length (zip_with f u v) = length u.
Proof.
  revert v. induction u as [| a u IH]; intros [| b v] H; try discriminate;
    [reflexivity |].
  simpl. f_equal. apply IH. now injection H.
Qed.

Lemma nth_zip_with_add (u v : list Z) (i : nat) :
  length u = length v ->
  nth i (zip_with Z.add u v) 0%Z = (nth i u 0 + nth i v 0)%Z.
Proof.
  revert v i. induction u as [| a u IH]; intros [| b v] i H; try discriminate.
  - now destruct i.
  - destruct i as [| i]; [reflexivity |]. simpl. apply IH. now injection H.
Qed.

Lemma zip_with_map (h : Z -> Z -> Z) (f g : nat -> Z) (l : list nat) :
  zip_with h (map f l) (map g l) = map (fun a => h (f a) (g a)) l.
Proof. induction l as [| a l IH]; simpl; [reflexivity | now rewrite IH]. Qed.

Lemma similar_lengths (x y : Tensor) :
  similar x y -> length (data x) = length (data y).
Proof.
  intros (Hx & Hy & Hsh). unfold well_formed, size in *.
  injection Hsh as H0 H1 H2. congruence.
Qed.

Lemma get_tensor_add (x y : Tensor) (i j k : nat) :
  similar x y ->
  get (tensor_add x y) i j k = (get x i j k + get y i j k)%Z.
Proof.
  intros Hs. pose proof (similar_lengths x y Hs) as Hlen.
  destruct Hs as (_ & _ & Hsh). injection Hsh as H0 H1 H2.
  unfold get, flat_index, tensor_add. cbn [dim1 dim2 data].
  rewrite nth_zip_with_add by assumption. now rewrite H1, H2.
Qed.

Lemma get_tensor_scale (c : Z) (x : Tensor) (i j k : nat) :
  get (tensor_scale c x) i j k = (c * get x i j k)%Z.
Proof.
  unfold get, flat_index, tensor_scale. cbn [dim1 dim2 data].
  replace 0%Z with (c * 0)%Z at 1 by lia.
  apply (map_nth (Z.mul c)).
Qed.

Lemma tensor_add_tabulate (n0 n1 n2 : nat) (f g : nat -> nat -> nat -> Z) :
  tensor_add (tabulate n0 n1 n2 f) (tabulate n0 n1 n2 g) =
  tabulate n0 n1 n2 (fun i j k => (f i j k + g i j k)%Z).
Proof.
  unfold tensor_add, tabulate. cbn [dim0 dim1 dim2 data].
  f_equal. apply zip_with_map.
Qed.

Lemma tensor_scale_tabulate (c : Z) (n0 n1 n2 : nat)
  (f : nat -> nat -> nat -> Z) :
  tensor_scale c (tabulate n0 n1 n2 f) =
  tabulate n0 n1 n2 (fun i j k => (c * f i j k)%Z).
Proof.
  unfold tensor_scale, tabulate. cbn [dim0 dim1 dim2 data].
  f_equal. apply map_map.
Qed.

Lemma similar_tabulate (n0 n1 n2 : nat) (f g : nat -> nat -> nat -> Z) :
  similar (tabulate n0 n1 n2 f) (tabulate n0 n1 n2 g).
Proof.
  repeat split; apply tabulate_well_formed.
Qed.

Lemma linear_none : linear_op (fun _ => None).
Proof. split; intros; [split |]; reflexivity. Qed.

(** Running one linear step after another is linear. *)
Lemma linear_bind (f g : Tensor -> option Tensor) :
  linear_op f -> linear_op g -> linear_op (fun x => y <- f x ;; g y).
Proof.
  intros [Hf Hfs] [Hg Hgs]. split.
  - intros x y Hxy. destruct (Hf x y Hxy) as [Hsim Hadd].
    rewrite Hadd.
    destruct (f x) as [a |], (f y) as [b |]; cbn in Hsim |- *;
      try contradiction; [| split; reflexivity].
    apply Hg. exact Hsim.
  - intros c x. rewrite Hfs.
    destruct (f x) as [a |]; cbn; [apply Hgs | reflexivity].
Qed.

Lemma infer_dim_some (total rest n : nat) :
  infer_dim total rest = Some n -> n * rest = total.
Proof.
  unfold infer_dim.
  destruct (Nat.eqb_spec rest 0) as [| Hr]; [discriminate |].
  destruct (Nat.eqb_spec (total mod rest) 0) as [Hm |]; [| discriminate].
  intros E. injection E as <-.
  pose proof (Nat.div_mod total rest Hr). lia.
Qed.

Lemma reshape_dims_size (total : nat) (shp : list Z) (n0 n1 n2 : nat) :
  reshape_dims total shp = Some (n0, n1, n2) -> n0 * n1 * n2 = total.
Proof.
  unfold reshape_dims.
  destruct shp as [| a [| b [| c [| e shp]]]]; try discriminate.
  destruct (a =? -1)%Z, (b =? -1)%Z, (c =? -1)%Z; try discriminate;
    match goal with |- (if ?cond then _ else _) = _ -> _ =>
      destruct cond eqn:Hcond end; try discriminate.
  - destruct (infer_dim total _) eqn:E; [| discriminate].
    intros [= <- <- <-]. apply infer_dim_some in E. lia.
  - destruct (infer_dim total _) eqn:E; [| discriminate].
    intros [= <- <- <-]. apply infer_dim_some in E. lia.
  - destruct (infer_dim total _) eqn:E; [| discriminate].
    intros [= <- <- <-]. apply infer_dim_some in E. lia.
  - intros [= <- <- <-].
    apply andb_prop in Hcond as [_ Hcond]. now apply Nat.eqb_eq.
Qed.

Lemma tf_reshape_linear (shp : list Z) :
  linear_op (fun x => tf_reshape x shp).
Proof.
  unfold tf_reshape. split.
  - intros x y Hxy. pose proof (similar_lengths x y Hxy) as Hlen.
    cbn [tensor_add data]. rewrite length_zip_with by assumption.
    rewrite <- Hlen.
    destruct (reshape_dims (length (data x)) shp) as [[[n0 n1] n2] |] eqn:E;
      [| split; reflexivity].
    apply reshape_dims_size in E.
    split; [| reflexivity].
    repeat split; unfold well_formed, size; cbn [dim0 dim1 dim2 data]; lia.
  - intros c x. cbn [tensor_scale data]. rewrite length_map.
    destruct (reshape_dims (length (data x)) shp) as [[[n0 n1] n2] |];
      reflexivity.
Qed.


Lemma tf_transpose_linear (perm : list nat) :
  linear_op (fun x => tf_transpose x perm).
Proof.
  unfold tf_transpose.
  destruct perm as [| p0 [| p1 [| p2 [| e perm]]]]; try apply linear_none.
  destruct (is_perm3 p0 p1 p2); [| apply linear_none].
  cbv zeta.
  assert (Haxis : forall x y a, shape x = shape y ->
                                axis_len x a = axis_len y a).
  { intros x y a Hsh. injection Hsh as H0 H1 H2.
    destruct a as [| [| a]]; assumption. }
  split.
  - intros x y Hxy. pose proof Hxy as (_ & _ & Hsh).
    rewrite !(Haxis (tensor_add x y) x) by reflexivity.
    rewrite <- !(Haxis x y) by assumption.
    split; [apply similar_tabulate |].
    cbn [lift2]. rewrite tensor_add_tabulate. f_equal.
    apply tabulate_ext. intros i j k _ _ _. now apply get_tensor_add.
  - intros c x. cbn [option_map].
    rewrite !(Haxis (tensor_scale c x) x) by reflexivity.
    rewrite tensor_scale_tabulate. f_equal.
    apply tabulate_ext. intros i j k _ _ _. apply get_tensor_scale.
Qed.




Lemma undo_subsample_linear (dilation : Z) :
  linear_op (undo_subsample dilation).
Proof.
  unfold undo_subsample.
  apply (linear_bind (fun Y => tf_reshape Y [dilation; -1; 1]%Z));
    [apply tf_reshape_linear |].
  apply (linear_bind (fun p => tf_transpose p [1; 0; 2]));
    [apply tf_transpose_linear |].
  apply tf_reshape_linear.
Qed.


(** ** Staying within the range where float32 is exact *)

Lemma conv1d_valid_sums (x h : Tensor) (stride : nat) :
  tf_nn_conv1d x h stride VALID =
  if nonempty_filter h
     && (dim2 x =? dim1 h) && (1 <=? stride) && (dim0 h <=? dim1 x) then
    Some (tabulate (dim0 x) ((dim1 x - dim0 h) / stride + 1) (dim2 h)
            (fun b t o =>
               sum_n (dim0 h) (fun k =>
                 sum_n (dim1 h) (fun c =>
                   (get x b (t * stride + k) c * get h k c o)%Z))))
  else None.
Proof.
  unfold tf_nn_conv1d, conv1d_valid.
  destruct (nonempty_filter h); cbn [andb]; [| reflexivity].
  destruct (Nat.eqb_spec (dim2 x) (dim1 h)) as [Hc |]; cbn [andb];
    [| reflexivity].
  destruct (1 <=? stride); cbn [andb]; [| reflexivity].
  destruct (dim0 h <=? dim1 x); [| reflexivity].
  f_equal. apply tabulate_ext. intros b t o _ _ _. now apply dot_patch.
Qed.

Lemma within_tabulate (A : Z) (n0 n1 n2 : nat) (f : nat -> nat -> nat -> Z) :
  (forall i j k, i < n0 -> j < n1 -> k < n2 -> (Z.abs (f i j k) <= A)%Z) ->
  within A (tabulate n0 n1 n2 f) = true.
Proof.
  intros Hf. unfold within, tabulate. cbn [data].
  apply forallb_forall. intros z Hin.
  apply in_map_iff in Hin as (idx & <- & Hidx). apply in_seq in Hidx.
  destruct (unravel_lt n1 n2 n0 idx) as (H0 & H1 & H2); [lia |].
  apply Z.leb_le. now apply Hf.
Qed.

Lemma within_mono (A A' : Z) (t : Tensor) :
  (A <= A')%Z -> within A t = true -> within A' t = true.
Proof.
  unfold within. intros HA Ht. rewrite forallb_forall in *.
  intros z Hz. apply Z.leb_le. specialize (Ht z Hz). apply Z.leb_le in Ht. lia.
Qed.

Lemma zip_with_add_within (A A' : Z) (u v : list Z) :
  forallb (fun z => (Z.abs z <=? A)%Z) u = true ->
  forallb (fun z => (Z.abs z <=? A')%Z) v = true ->
  forallb (fun z => (Z.abs z <=? A + A')%Z) (zip_with Z.add u v) = true.
Proof.
  revert v. induction u as [| a u IH]; intros [| b v] Hu Hv; try reflexivity.
  cbn in Hu, Hv |- *.
  apply andb_prop in Hu as [Ha Hu]. apply andb_prop in Hv as [Hb Hv].
  rewrite (IH v Hu Hv), andb_true_r.
  apply Z.leb_le. apply Z.leb_le in Ha, Hb.
  pose proof (Z.abs_triangle a b). lia.
Qed.

Lemma tensor_add_within (A A' : Z) (x y : Tensor) :
  within A x = true -> within A' y = true ->
  within (A + A') (tensor_add x y) = true.
Proof. apply zip_with_add_within. Qed.

Lemma tensor_scale_within (c A : Z) (x : Tensor) :
  within A x = true -> within (Z.abs c * A) (tensor_scale c x) = true.
Proof.
  unfold within, tensor_scale. cbn [data]. intros Hx.
  rewrite forallb_forall in *. intros z Hz.
  apply in_map_iff in Hz as (w & <- & Hw).
  specialize (Hx w Hw). apply Z.leb_le in Hx. apply Z.leb_le.
  rewrite Z.abs_mul.
  apply Z.mul_le_mono_nonneg_l; [apply Z.abs_nonneg | exact Hx].
Qed.

Lemma tf_pad_within (A : Z) (t p : Tensor) (paddings : list (Z * Z)) :
  (0 <= A)%Z -> within A t = true ->
  tf_pad t paddings = Some p -> within A p = true.
Proof.
  intros HA Ht. unfold tf_pad.
  destruct paddings as [| [b0 a0] [| [b1 a1] [| [b2 a2] [| e paddings]]]];
    try discriminate.
  destruct (forallb nonneg [b0; a0; b1; a1; b2; a2]); [| discriminate].
  intros [= <-]. apply within_tabulate. intros i j k _ _ _.
  match goal with |- context [if ?cond then _ else _] => destruct cond end;
    [now apply within_get | exact HA].
Qed.

Lemma tf_reshape_within (A : Z) (t r : Tensor) (shp : list Z) :
  within A t = true -> tf_reshape t shp = Some r -> within A r = true.
Proof.
  intros Ht. unfold tf_reshape.
  destruct (reshape_dims (length (data t)) shp) as [[[n0 n1] n2] |];
    [| discriminate].
  intros [= <-]. exact Ht.
Qed.

Lemma tf_transpose_within (A : Z) (t r : Tensor) (perm : list nat) :
  (0 <= A)%Z -> within A t = true ->
  tf_transpose t perm = Some r -> within A r = true.
Proof.
  intros HA Ht. unfold tf_transpose.
  destruct perm as [| p0 [| p1 [| p2 [| e perm]]]]; try discriminate.
  destruct (is_perm3 p0 p1 p2); [| discriminate].
  intros [= <-]. apply within_tabulate. intros i j k _ _ _.
  now apply within_get.
Qed.

(** Every output sample of the valid convolution sums [window_size h]
    products of a sample and a tap. *)
Lemma conv1d_valid_within (A B : Z) (x h y : Tensor) (stride : nat) :
  (0 <= A)%Z -> (0 <= B)%Z -> within A x = true -> within B h = true ->
  tf_nn_conv1d x h stride VALID = Some y ->
  within (window_size h * (A * B)) y = true.
Proof.
  intros HA HB Hx Hh. rewrite conv1d_valid_sums.
  match goal with |- (if ?cond then _ else _) = _ -> _ => destruct cond end;
    [| discriminate].
  intros [= <-]. apply within_tabulate. intros b t o _ _ _.
  apply (window_sum_bound x h A B
           (fun k c => get x b (t * stride + k) c) o); try assumption.
  intros k c. now apply within_get.
Qed.

Lemma subsample_within (A : Z) (input_len dilation : Z) (X S : Tensor) :
  (0 <= A)%Z -> within A X = true ->
  subsample input_len dilation X = Some S -> within A S = true.
Proof.
  intros HA HX. unfold subsample.
  destruct (pad_amount input_len dilation) as [amount |]; [| discriminate].
  cbn [bind].
  destruct (tf_pad X _) as [p |] eqn:Ep; [| discriminate]. cbn [bind].
  destruct (tf_reshape p _) as [r |] eqn:Er; [| discriminate]. cbn [bind].
  destruct (tf_transpose r _) as [t |] eqn:Et; [| discriminate]. cbn [bind].
  intros Es.
  eapply tf_reshape_within; [| exact Es].
  eapply tf_transpose_within; [exact HA | | exact Et].
  eapply tf_reshape_within; [| exact Er].
  eapply tf_pad_within; [exact HA | exact HX | exact Ep].
Qed.

Lemma undo_subsample_within (A : Z) (dilation : Z) (Y R : Tensor) :
  (0 <= A)%Z -> within A Y = true ->
  undo_subsample dilation Y = Some R -> within A R = true.
Proof.
  intros HA HY. unfold undo_subsample.
  destruct (tf_reshape Y _) as [p |] eqn:Ep; [| discriminate]. cbn [bind].
  destruct (tf_transpose p _) as [t |] eqn:Et; [| discriminate]. cbn [bind].
  intros Er.
  eapply tf_reshape_within; [| exact Er].
  eapply tf_transpose_within; [exact HA | | exact Et].
  eapply tf_reshape_within; [exact HY | exact Ep].
Qed.

Lemma dilated_causal_conv_within (A B : Z)
  (input_len filter_width dilation : Z) (X H R : Tensor) :
  (0 <= A)%Z -> (0 <= B)%Z -> within A X = true -> within B H = true ->
  dilated_causal_conv input_len filter_width dilation X H = Some R ->
  within (window_size H * (A * B)) R = true.
Proof.
  intros HA HB HX HH. unfold dilated_causal_conv.
  destruct (subsample input_len dilation X) as [S |] eqn:ES; [| discriminate].
  cbn [bind].
  destruct (causal_pad filter_width S) as [P |] eqn:EP; [| discriminate].
  cbn [bind].
  destruct (tf_nn_conv1d P H 1 VALID) as [Y |] eqn:EY; [| discriminate].
  cbn [bind]. intros ER.
  assert (HW : (0 <= window_size H * (A * B))%Z)
    by (unfold window_size; apply Z.mul_nonneg_nonneg; nia).
  apply (undo_subsample_within _ dilation Y R HW); [| exact ER].
  apply (conv1d_valid_within A B P H Y 1 HA HB); [| exact HH | exact EY].
  eapply tf_pad_within; [exact HA | | exact EP].
  now apply (subsample_within A input_len dilation X S).
Qed.




(** * Further properties of the cells *)

(** ** Cell 2: the ramp signal *)



(** ** Cell 6 on any batch size and channel count *)

(** X2.  With a filter of at least one tap, one input channel and one
    output channel, the causal convolution of cell 6 returns a well-formed
    signal of the input's batch size and time length (and the filter's
    output channels) on every non-empty signal with the filter's input
    channel count, for any batch size and channel counts. *)
Theorem causal_conv_keeps_length (X H : Tensor) :
  1 <= dim0 H -> 1 <= dim1 H -> 1 <= dim2 H ->
  1 <= dim0 X -> dim2 X = dim1 H -> 1 <= dim1 X ->
  exists Y, causal_conv (Z.of_nat (dim0 H)) X H = Some Y /\
            well_formed Y /\
            shape Y = (dim0 X, dim1 X, dim2 H).
Proof.
  intros Hfw Hin Hout _ Hc HT. eexists.
  split; [apply (causal_conv_tabulate X H (dim0 H));
          solve [reflexivity | assumption
                 | now apply nonempty_filter_true] |].
  split; [apply tabulate_well_formed | reflexivity].
Qed.

Lemma causal_conv_keeps_length_witness :
  let X := mkTensor 2 3 2 [1; 2; 3; 4; 5; 6; 7; 8; 9; 10; 11; 12]%Z in
  let H := mkTensor 2 2 3 [1; 0; 2; 0; 1; 0; 3; 0; 0; 1; 1; 1]%Z in
  exists Y, causal_conv 2 X H = Some Y /\
            well_formed Y /\
            shape Y = (2, 3, 3).
Proof.
  intros X H.
  apply (causal_conv_keeps_length X H); simpl; lia.
Defined.

(** X17.  On a signal of time length 0, with a filter of at least one tap,
    the causal convolution of cell 6 raises: the left padding makes the
    signal [filter_width - 1] long, one short of the filter. *)
Theorem causal_conv_empty_signal_raises (X H : Tensor) :
  1 <= dim0 H -> dim1 X = 0 ->
  causal_conv (Z.of_nat (dim0 H)) X H = None.
Proof.
  intros Hfw HT. now apply (causal_conv_empty X H (dim0 H)).
Qed.

Lemma causal_conv_empty_signal_raises_witness :
  let empty := mkTensor 1 0 1 [] in
  let H := mkTensor 2 1 1 [1; 1]%Z in
  causal_conv 2 empty H = None.
Proof.
  intros empty H.
  apply (causal_conv_empty_signal_raises empty H); simpl; lia.
Defined.

(** X3.  The causal convolution of cell 6 is causal on every batch element
    and channel: for two non-empty signals of one shape and a filter with
    at least one tap, input channel and output channel, if the signals
    agree at all times up to [t], in every batch element and channel, their
    outputs agree at all times up to [t]. *)
Theorem causal_conv_causal (X X' H : Tensor) (t : nat) :
  shape X = shape X' ->
  1 <= dim0 H -> 1 <= dim1 H -> 1 <= dim2 H ->
  1 <= dim0 X -> dim2 X = dim1 H -> 1 <= dim1 X ->
  (forall b u c, b < dim0 X -> c < dim2 X -> u <= t ->
                 get X b u c = get X' b u c) ->
  exists Y Y',
    causal_conv (Z.of_nat (dim0 H)) X H = Some Y /\
    causal_conv (Z.of_nat (dim0 H)) X' H = Some Y' /\
    forall b u o, b < dim0 X -> u < dim1 X -> o < dim2 H -> u <= t ->
                  get Y b u o = get Y' b u o.
Proof.
  intros Hsh Hfw Hin Hout _ Hc HT Hagree.
  pose proof (nonempty_filter_true H Hfw Hin Hout) as Hne.
  injection Hsh as H0 H1 H2.
  do 2 eexists.
  split; [apply (causal_conv_tabulate X H (dim0 H)); (reflexivity || assumption) |].
  split; [apply (causal_conv_tabulate X' H (dim0 H)); (reflexivity || congruence || lia) |].
  intros b u o Hb Hu Ho Hut.
  rewrite <- H0, <- H1.
  rewrite !get_tabulate by assumption.
  apply sum_n_ext. intros k Hk. apply sum_n_ext. intros c Hcl.
  destruct (Nat.ltb_spec (u + k) (dim0 H - 1)); [reflexivity |].
  rewrite Hagree by lia. reflexivity.
Qed.

Lemma causal_conv_causal_witness :
  let X := mkTensor 2 3 1 [1; 2; 3; 4; 5; 6]%Z in
  let X' := mkTensor 2 3 1 [1; 2; 30; 4; 5; 60]%Z in
  let H := mkTensor 2 1 1 [1; 1]%Z in
  (forall b u c, b < 2 -> c < 1 -> u <= 1 -> get X b u c = get X' b u c) /\
  exists Y Y',
    causal_conv 2 X H = Some Y /\
    causal_conv 2 X' H = Some Y' /\
    forall b u o, b < 2 -> u < 3 -> o < 1 -> u <= 1 ->
                  get Y b u o = get Y' b u o.
Proof.
  intros X X' H.
  assert (Hagree : forall b u c, b < 2 -> c < 1 -> u <= 1 ->
                                 get X b u c = get X' b u c).
  { intros b u c Hb Hc Hu.
    destruct b as [| [| b]]; [| | lia];
      (destruct u as [| [| u]]; [| | lia]);
      (destruct c as [| c]; [reflexivity | lia]). }
  split; [exact Hagree |].
  apply (causal_conv_causal X X' H 1);
    solve [reflexivity | simpl; lia | exact Hagree].
Defined.

(** X4.  The plain valid convolution of cell 4 is the tail of the causal
    convolution of cell 6: on a signal with a non-empty batch and a filter
    with at least one tap, input channel and output channel, output time
    [t] of the former is output time [t + filter_width - 1] of the latter,
    for every batch element and output channel. *)
Theorem basic_conv_is_causal_tail (X H : Tensor) :
  1 <= dim0 H -> 1 <= dim1 H -> 1 <= dim2 H ->
  1 <= dim0 X -> dim2 X = dim1 H -> dim0 H <= dim1 X ->
  exists V Y,
    basic_conv X H = Some V /\
    causal_conv (Z.of_nat (dim0 H)) X H = Some Y /\
    dim1 V + (dim0 H - 1) = dim1 Y /\
    forall b t o, b < dim0 X -> t < dim1 V -> o < dim2 H ->
                  get V b t o = get Y b (t + (dim0 H - 1)) o.
Proof.
  intros Hfw Hin Hout _ Hc Hlen.
  pose proof (nonempty_filter_true H Hfw Hin Hout) as Hne.
  do 2 eexists.
  split; [unfold basic_conv; now apply conv1d_valid_stride1 |].
  split; [apply (causal_conv_tabulate X H (dim0 H)); (reflexivity || assumption || lia) |].
  rewrite !dim1_tabulate.
  split; [lia |].
  intros b t o Hb Ht Ho. rewrite !get_tabulate by (assumption || lia).
  apply sum_n_ext. intros k Hk. apply sum_n_ext. intros c _.
  destruct (Nat.ltb_spec (t + (dim0 H - 1) + k) (dim0 H - 1)); [lia |].
  replace (t + (dim0 H - 1) + k - (dim0 H - 1)) with (t + k) by lia.
  reflexivity.
Qed.

Lemma basic_conv_is_causal_tail_witness :
  let X := mkTensor 1 4 2 [1; 2; 3; 4; 5; 6; 7; 8]%Z in
  let H := mkTensor 2 2 1 [1; 10; 100; 1000]%Z in
  exists V Y,
    basic_conv X H = Some V /\
    causal_conv 2 X H = Some Y /\
    dim1 V + 1 = dim1 Y /\
    forall b t o, b < 1 -> t < dim1 V -> o < 1 ->
                  get V b t o = get Y b (t + 1) o.
Proof.
  intros X H. apply (basic_conv_is_causal_tail X H); simpl; lia.
Defined.

(** ** What cell 8 refuses, and what it always returns *)

Lemma subsample_nonpositive_dilation (input_len dilation : Z) (X : Tensor) :
  (dilation <= 0)%Z -> subsample input_len dilation X = None.
Proof.
  intros Hd. unfold subsample, pad_amount, py_mod.
  destruct (Z.eqb_spec dilation 0) as [E | Hne]; [reflexivity |].
  cbn [bind].
  assert (Hneg : (dilation < 0)%Z) by lia.
  pose proof (Z.mod_neg_bound (dilation - input_len mod dilation) dilation Hneg)
    as Hamount.
  set (amount := ((dilation - input_len mod dilation) mod dilation)%Z) in *.
  unfold tf_pad. cbn [forallb nonneg Z.leb Z.compare andb].
  destruct (nonneg amount); cbn [andb bind]; [| reflexivity].
  unfold tf_reshape, reshape_dims. cbn [Z.eqb].
  destruct (Z.eqb_spec dilation (-1)); [reflexivity |].
  assert (Hnn : nonneg dilation = false)
    by (unfold nonneg; apply Z.leb_gt; lia).
  rewrite Hnn. reflexivity.
Qed.

(** X5.  A dilation rate of zero or less makes cell 8 raise, whatever the
    signal, the filter and the other parameters: zero divides by zero in the
    pad amount, and a negative rate gives a negative pad amount or a
    negative reshape dimension. *)
Theorem nonpositive_dilation_raises (input_len filter_width dilation : Z)
  (X H : Tensor) :
  (dilation <= 0)%Z ->
  dilated_causal_conv input_len filter_width dilation X H = None.
Proof.
  intros Hd. unfold dilated_causal_conv.
  now rewrite subsample_nonpositive_dilation.
Qed.

Lemma nonpositive_dilation_raises_witness :
  dilated_causal_conv 8 3 (-2) (mkTensor 1 8 1 [0; 1; 2; 3; 4; 5; 6; 7]%Z)
    (mkTensor 3 1 1 [1; 1; 1]%Z) = None.
Proof.
  apply (nonpositive_dilation_raises 8 3 (-2)). lia.
Defined.

Lemma causal_pad_nonpositive_width (filter_width : Z) (X : Tensor) :
  (filter_width <= 0)%Z -> causal_pad filter_width X = None.
Proof.
  intros Hfw. unfold causal_pad, tf_pad.
  cbn [forallb nonneg Z.leb Z.compare andb].
  assert (Hnn : nonneg (filter_width - 1) = false)
    by (unfold nonneg; apply Z.leb_gt; lia).
  rewrite Hnn. reflexivity.
Qed.

(** X6.  A filter width of zero or less makes both the causal convolution
    of cell 6 and the dilated causal convolution of cell 8 raise: the left
    padding [filter_width - 1] is negative. *)
Theorem nonpositive_filter_width_raises (input_len filter_width dilation : Z)
  (X H : Tensor) :
  (filter_width <= 0)%Z ->
  causal_conv filter_width X H = None /\
  dilated_causal_conv input_len filter_width dilation X H = None.
Proof.
  intros Hfw. split.
  - unfold causal_conv. now rewrite causal_pad_nonpositive_width.
  - unfold dilated_causal_conv.
    destruct (subsample input_len dilation X) as [S |]; [| reflexivity].
    cbn [bind]. now rewrite causal_pad_nonpositive_width.
Qed.

Lemma nonpositive_filter_width_raises_witness :
  causal_conv 0 (mkTensor 1 8 1 [0; 1; 2; 3; 4; 5; 6; 7]%Z)
    (mkTensor 0 1 1 []) = None /\
  dilated_causal_conv 8 0 2 (mkTensor 1 8 1 [0; 1; 2; 3; 4; 5; 6; 7]%Z)
    (mkTensor 0 1 1 []) = None.
Proof.
  apply (nonpositive_filter_width_raises 8 0 2). lia.
Defined.

Lemma tf_reshape_streams_shape (t S : Tensor) (dilation : Z) :
  tf_reshape t [dilation; -1; 1]%Z = Some S ->
  (1 <= dilation)%Z /\
  dim0 S = Z.to_nat dilation /\ dim2 S = 1 /\ data S = data t /\
  well_formed S.
Proof.
  unfold tf_reshape, reshape_dims. cbn [Z.eqb].
  destruct (Z.eqb_spec dilation (-1)); [discriminate |].
  destruct (nonneg dilation) eqn:Hnn; cbn [nonneg Z.leb Z.compare andb];
    [| discriminate].
  destruct (infer_dim (length (data t)) (Z.to_nat dilation * Z.to_nat 1))
    as [m |] eqn:E; [| discriminate].
  cbn [bind]. intros [= <-].
  pose proof (infer_dim_some _ _ _ E) as Hsz.
  unfold nonneg in Hnn. apply Z.leb_le in Hnn.
  assert (Hne : Z.to_nat dilation * Z.to_nat 1 <> 0).
  { intros E0. unfold infer_dim in E. rewrite E0 in E. discriminate. }
  change (Z.to_nat 1) with 1 in *.
  repeat split; try reflexivity; [lia |].
  unfold well_formed, size. cbn [dim0 dim1 dim2 data]. lia.
Qed.

Lemma subsample_one_channel (input_len dilation : Z) (X S : Tensor) :
  subsample input_len dilation X = Some S -> dim2 S = 1.
Proof.
  unfold subsample.
  destruct (pad_amount input_len dilation); [| discriminate]. cbn [bind].
  destruct (tf_pad X _); [| discriminate]. cbn [bind].
  destruct (tf_reshape _ [-1; dilation; 1]%Z); [| discriminate]. cbn [bind].
  destruct (tf_transpose _ _); [| discriminate]. cbn [bind].
  intros E. now apply tf_reshape_streams_shape in E.
Qed.

Lemma causal_pad_channels (filter_width : Z) (X P : Tensor) :
  causal_pad filter_width X = Some P -> dim2 P = dim2 X.
Proof.
  unfold causal_pad, tf_pad.
  destruct (forallb nonneg _); [| discriminate].
  intros [= <-]. rewrite dim2_tabulate. cbn [Z.to_nat]. lia.
Qed.

(** X7.  Cell 8 reads every signal as one channel, so it raises on every
    filter whose input channel count is not 1. *)
Theorem dilated_needs_one_input_channel
  (input_len filter_width dilation : Z) (X H : Tensor) :
  dim1 H <> 1 ->
  dilated_causal_conv input_len filter_width dilation X H = None.
Proof.
  intros HH. unfold dilated_causal_conv.
  destruct (subsample input_len dilation X) as [S |] eqn:ES; [| reflexivity].
  cbn [bind].
  destruct (causal_pad filter_width S) as [P |] eqn:EP; [| reflexivity].
  cbn [bind].
  apply subsample_one_channel in ES. apply causal_pad_channels in EP.
  unfold tf_nn_conv1d, conv1d_valid.
  assert (Hne : dim2 P <> dim1 H) by congruence.
  rewrite (proj2 (Nat.eqb_neq _ _) Hne), andb_false_r. reflexivity.
Qed.

Lemma dilated_needs_one_input_channel_witness :
  dilated_causal_conv 2 2 2 (mkTensor 1 2 2 [1; 2; 3; 4]%Z)
    (mkTensor 2 2 1 [1; 1; 1; 1]%Z) = None.
Proof.
  apply (dilated_needs_one_input_channel 2 2 2). simpl. lia.
Defined.

Lemma undo_subsample_shape (dilation : Z) (Y R : Tensor) :
  undo_subsample dilation Y = Some R ->
  well_formed R /\ dim0 R = 1 /\ dim2 R = 1 /\
  (1 <= dilation)%Z /\ (Z.of_nat (dim1 R) mod dilation = 0)%Z.
Proof.
  unfold undo_subsample.
  destruct (tf_reshape Y [dilation; -1; 1]%Z) as [prepared |] eqn:E;
    [| discriminate].
  cbn [bind]. rewrite tf_transpose_102. cbn [bind].
  rewrite tf_reshape_single, length_tabulate. intros [= <-].
  apply tf_reshape_streams_shape in E as (Hd & H0 & H2 & _ & _).
  rewrite H0, H2.
  split; [unfold well_formed, size, tabulate; cbn [dim0 dim1 dim2 data];
          rewrite length_map, length_seq; lia |].
  cbn [dim0 dim1 dim2].
  repeat split; try assumption.
  rewrite Nat.mul_1_r, Nat2Z.inj_mul, Z2Nat.id by lia.
  apply Z.mod_mul. lia.
Qed.

(** X8.  Whatever it is given, when cell 8 returns a signal that signal is
    well formed, has batch size 1 and one channel, and its time length is a
    multiple of the dilation rate. *)
Theorem dilated_output_shape (input_len filter_width dilation : Z)
  (X H Y : Tensor) :
  dilated_causal_conv input_len filter_width dilation X H = Some Y ->
  well_formed Y /\ dim0 Y = 1 /\ dim2 Y = 1 /\
  (Z.of_nat (dim1 Y) mod dilation = 0)%Z.
Proof.
  unfold dilated_causal_conv.
  destruct (subsample input_len dilation X) as [S |]; [| discriminate].
  cbn [bind].
  destruct (causal_pad filter_width S) as [P |]; [| discriminate].
  cbn [bind].
  destruct (tf_nn_conv1d P H 1 VALID) as [C |]; [| discriminate].
  cbn [bind]. intros E.
  apply undo_subsample_shape in E as (Hwf & H0 & H2 & _ & Hm).
  repeat split; assumption.
Qed.

Lemma dilated_output_shape_witness :
  let Y := mkTensor 1 6 1 [3; 6; 9; 13; 17; 3]%Z in
  well_formed Y /\ dim0 Y = 1 /\ dim2 Y = 1 /\
  (Z.of_nat (dim1 Y) mod 3 = 0)%Z.
Proof.
  intros Y.
  apply (dilated_output_shape 5 2 3 (mkTensor 1 5 1 [1; 2; 3; 4; 5]%Z)
           (mkTensor 2 1 1 [1; 3]%Z) Y).
  vm_compute. reflexivity.
Defined.

(** ** Cell 8 on batches and on empty signals *)

Lemma tf_reshape_data (t t' : Tensor) (shp : list Z) :
  data t = data t' -> tf_reshape t shp = tf_reshape t' shp.
Proof. intros E. unfold tf_reshape. now rewrite E. Qed.

Lemma tf_pad_nothing (t : Tensor) :
  well_formed t ->
  tf_pad t [(0, 0); (0, Z.of_nat 0); (0, 0)]%Z = Some t.
Proof.
  intros Hwf. rewrite tf_pad_right. f_equal. rewrite Nat.add_0_r.
  transitivity (tabulate (dim0 t) (dim1 t) (dim2 t) (get t));
    [| symmetry; now apply tensor_eta].
  apply tabulate_ext. intros i j k _ Hj _.
  now rewrite (proj2 (Nat.ltb_lt _ _) Hj).
Qed.

Lemma tail_padding_multiple (n d : nat) :
  1 <= d -> tail_padding (n * d) d = 0.
Proof.
  intros Hd. apply tail_padding_zero; [assumption |].
  apply Nat.Div0.mod_mul.
Qed.

(** The subsampling step only reads the buffer of the padded signal: it
    returns what it returns on that buffer taken as one single-channel
    signal. *)
Lemma subsample_flattened (X : Tensor) (B T C d : nat) :
  well_formed X -> shape X = (B, T, C) -> 1 <= d ->
  let padded := tabulate B (T + tail_padding T d) C
                  (fun i j k => if j <? T then get X i j k else 0%Z) in
  let N := B * padded_len T d * C in
  subsample (Z.of_nat T) (Z.of_nat d) X =
  subsample (Z.of_nat N) (Z.of_nat d) (mkTensor 1 N 1 (data padded)).
Proof.
  intros Hwf Hsh Hd padded N.
  injection Hsh as H0 H1 H2.
  pose proof (padded_len_streams T d Hd) as HL.
  assert (HN : N = (B * stream_len T d * C) * d) by (unfold N; rewrite HL; lia).
  assert (Hflat : well_formed (mkTensor 1 N 1 (data padded))).
  { unfold well_formed, size. cbn [dim0 dim1 dim2 data].
    unfold padded. rewrite length_tabulate. unfold N, padded_len. lia. }
  unfold subsample.
  rewrite !pad_amount_nat by assumption. cbn [bind].
  rewrite tf_pad_right, H0, H1, H2. fold (tail_padding T d). fold padded.
  fold (tail_padding N d). rewrite HN at 2.
  rewrite tail_padding_multiple by assumption.
  rewrite (tf_pad_nothing _ Hflat). cbn [bind].
  now rewrite (tf_reshape_data padded (mkTensor 1 N 1 (data padded))).
Qed.

(** X9.  Cell 8 treats a batch as one long signal.  On a well-formed signal
    of any batch size and channel count it returns what it returns on the
    buffer of the right-padded signal read as a single one-channel signal:
    the batch elements laid end to end, so that the filter reaches from
    each batch element back into the one before it. *)
Theorem dilated_reads_batch_as_one_signal (X H : Tensor) (B T C d : nat)
  (filter_width : Z) :
  well_formed X -> shape X = (B, T, C) -> 1 <= d ->
  exists padded,
    tf_pad X [(0, 0); (0, Z.of_nat ((d - T mod d) mod d)); (0, 0)]%Z
      = Some padded /\
    let N := length (data padded) in
    N = B * (T + (d - T mod d) mod d) * C /\
    dilated_causal_conv (Z.of_nat T) filter_width (Z.of_nat d) X H =
    dilated_causal_conv (Z.of_nat N) filter_width (Z.of_nat d)
      (mkTensor 1 N 1 (data padded)) H.
Proof.
  intros Hwf Hsh Hd.
  exists (tabulate B (T + tail_padding T d) C
            (fun i j k => if j <? T then get X i j k else 0%Z)).
  split.
  { rewrite tf_pad_right. injection Hsh as H0 H1 H2.
    now rewrite H0, H1, H2. }
  cbv zeta. rewrite length_tabulate.
  split; [reflexivity |].
  unfold dilated_causal_conv.
  now rewrite (subsample_flattened X B T C d Hwf Hsh Hd).
Qed.

Lemma dilated_reads_batch_as_one_signal_witness :
  let X := mkTensor 2 2 1 [1; 2; 3; 4]%Z in
  let H := mkTensor 2 1 1 [1; 1]%Z in
  dilated_causal_conv 2 2 1 X H = Some (mkTensor 1 4 1 [1; 3; 5; 7]%Z) /\
  exists padded,
    tf_pad X [(0, 0); (0, 0); (0, 0)]%Z = Some padded /\
    let N := length (data padded) in
    N = 2 * (2 + 0) * 1 /\
    dilated_causal_conv 2 2 1 X H =
    dilated_causal_conv (Z.of_nat N) 2 1 (mkTensor 1 N 1 (data padded)) H.
Proof.
  intros X H. split; [vm_compute; reflexivity |].
  apply (dilated_reads_batch_as_one_signal X H 2 2 1 1 2);
    [reflexivity | reflexivity | lia].
Defined.

(** X10.  On an empty signal (time length 0, any batch size and channel
    count) cell 8 raises: every stream is empty, and the padded stream is
    shorter than the filter. *)
Theorem dilated_empty_signal_raises (X H : Tensor) (d : nat) :
  well_formed X -> dim1 X = 0 -> 1 <= dim0 H -> 1 <= d ->
  dilated_causal_conv 0 (Z.of_nat (dim0 H)) (Z.of_nat d) X H = None.
Proof.
  intros Hwf HT Hfw Hd.
  assert (Hsh : shape X = (dim0 X, 0, dim2 X)) by (unfold shape; now rewrite HT).
  assert (HL : padded_len 0 d = 0).
  { unfold padded_len, tail_padding.
    rewrite Nat.Div0.mod_0_l, Nat.sub_0_r, Nat.Div0.mod_same. reflexivity. }
  unfold dilated_causal_conv. change 0%Z with (Z.of_nat 0).
  rewrite (subsample_flattened X (dim0 X) 0 (dim2 X) d Hwf Hsh Hd).
  cbv zeta. rewrite HL.
  replace (dim0 X * 0 * dim2 X) with 0 by lia.
  match goal with |- context [mkTensor 1 0 1 ?l] => set (flat := mkTensor 1 0 1 l) end.
  assert (Hflat : well_formed flat).
  { unfold flat, well_formed, size. cbn [dim0 dim1 dim2 data].
    rewrite length_tabulate. unfold tail_padding.
    rewrite Nat.Div0.mod_0_l, Nat.sub_0_r, Nat.Div0.mod_same. lia. }
  exact (dilated_causal_conv_empty flat H (dim0 H) d Hflat eq_refl eq_refl Hfw Hd).
Qed.

Lemma dilated_empty_signal_raises_witness :
  dilated_causal_conv 0 2 3 (mkTensor 2 0 1 []) (mkTensor 2 1 1 [1; 1]%Z)
    = None.
Proof.
  apply (dilated_empty_signal_raises (mkTensor 2 0 1 [])
           (mkTensor 2 1 1 [1; 1]%Z) 3); (reflexivity || simpl; lia).
Defined.

(** ** Streams *)

Lemma stream_len_multiple (M d : nat) : 1 <= d -> stream_len (M * d) d = M.
Proof.
  intros Hd. unfold stream_len, padded_len.
  rewrite tail_padding_multiple, Nat.add_0_r by assumption.
  apply Nat.div_mul. lia.
Qed.

(** X11.  Subsampling is also the inverse of its undoing: interleaving [d]
    streams of one length and subsampling the result at rate [d] gives the
    streams back. *)
Theorem subsample_undo_inverse (Y : Tensor) (d M : nat) :
  well_formed Y -> shape Y = (d, M, 1) -> 1 <= d ->
  exists merged,
    undo_subsample (Z.of_nat d) Y = Some merged /\
    shape merged = (1, M * d, 1) /\
    subsample (Z.of_nat (M * d)) (Z.of_nat d) merged = Some Y.
Proof.
  intros Hwf Hsh Hd. eexists.
  split; [now apply (undo_subsample_interleave Y d M) |].
  split; [reflexivity |].
  rewrite (subsample_streams _ (M * d) d);
    [| apply tabulate_well_formed | reflexivity | assumption].
  f_equal. rewrite stream_len_multiple by assumption.
  destruct Y as [n0 n1 n2 l]. injection Hsh as -> -> ->.
  transitivity (tabulate d M 1 (get (mkTensor d M 1 l)));
    [| symmetry; now apply tensor_eta].
  apply tabulate_ext. intros s p k Hs Hp Hk.
  rewrite sample_tabulate.
  assert (Hlt : p * d + s < M * d) by nia.
  rewrite (proj2 (Nat.ltb_lt _ _) Hlt).
  replace k with 0 by lia. f_equal.
  - symmetry. apply Nat.mod_unique with (q := p); lia.
  - symmetry. apply Nat.div_unique with (r := s); lia.
Qed.

Lemma subsample_undo_inverse_witness :
  let Y := mkTensor 2 3 1 [1; 2; 3; 4; 5; 6]%Z in
  exists merged,
    undo_subsample 2 Y = Some merged /\
    shape merged = (1, 6, 1) /\
    subsample 6 2 merged = Some Y.
Proof.
  intros Y. apply (subsample_undo_inverse Y 2 3); [reflexivity | reflexivity | lia].
Defined.

(** X12.  Cell 8 is the causal convolution of cell 6 run on each stream:
    for every phase [s < d], the output samples [s], [s + d], [s + 2d], ...
    are the causal convolution of the input samples [s], [s + d],
    [s + 2d], ... (zero past the end of the input). *)
Theorem dilated_is_causal_conv_per_stream (X H : Tensor) (T fw d s : nat) :
  well_formed X -> shape X = (1, T, 1) -> shape H = (fw, 1, 1) ->
  1 <= T -> 1 <= fw -> 1 <= d -> s < d ->
  let M := (T + (d - T mod d) mod d) / d in
  let stream := tabulate 1 M 1 (fun _ p _ => sample X (p * d + s)) in
  exists D Ys,
    dilated_causal_conv (Z.of_nat T) (Z.of_nat fw) (Z.of_nat d) X H = Some D /\
    causal_conv (Z.of_nat fw) stream H = Some Ys /\
    forall p, p < M -> sample D (p * d + s) = sample Ys p.
Proof.
  intros Hwf HshX HshH HT Hfw Hd Hs M stream.
  pose proof (stream_len_pos T d Hd HT) as HM.
  pose proof (padded_len_streams T d Hd) as HL.
  fold (tail_padding T d) in M. fold (padded_len T d) in M.
  fold (stream_len T d) in M.
  do 2 eexists.
  split; [now apply dilated_causal_conv_tabulate |].
  split; [apply (causal_conv_samples stream H M fw);
          (reflexivity || assumption) |].
  intros p Hp. rewrite !sample_tabulate.
  assert (Hlt : p * d + s < padded_len T d) by (unfold M in Hp; nia).
  rewrite (proj2 (Nat.ltb_lt _ _) Hlt), (proj2 (Nat.ltb_lt _ _) Hp).
  unfold dilated_sum, causal_sum.
  replace ((p * d + s) / d) with p
    by (apply Nat.div_unique with (r := s); lia).
  replace ((p * d + s) mod d) with s
    by (apply Nat.mod_unique with (q := p); lia).
  apply sum_n_ext. intros k Hk.
  destruct (Nat.ltb_spec (p + k) (fw - 1)); [reflexivity |].
  unfold stream. rewrite sample_tabulate.
  assert (Hq : p + k - (fw - 1) < M) by lia.
  rewrite (proj2 (Nat.ltb_lt _ _) Hq). reflexivity.
Qed.

Lemma dilated_is_causal_conv_per_stream_witness :
  let X := mkTensor 1 5 1 [1; 2; 3; 4; 5]%Z in
  let H := mkTensor 2 1 1 [1; 10]%Z in
  let stream := tabulate 1 3 1 (fun _ p _ => sample X (p * 2 + 1)) in
  exists D Ys,
    dilated_causal_conv 5 2 2 X H = Some D /\
    causal_conv 2 stream H = Some Ys /\
    forall p, p < 3 -> sample D (p * 2 + 1) = sample Ys p.
Proof.
  intros X H.
  apply (dilated_is_causal_conv_per_stream X H 5 2 2 1);
    (reflexivity || lia).
Defined.

(** ** The pad amount *)

(** X13.  For a dilation rate [d >= 1] the pad amount of cell 8 is the
    least number of time steps that brings the time length up to a multiple
    of [d]: it is below [d], [d] divides the padded length, and no smaller
    padding has that property. *)
Theorem pad_amount_least (T d : nat) :
  1 <= d ->
  exists a,
    pad_amount (Z.of_nat T) (Z.of_nat d) = Some (Z.of_nat a) /\
    a < d /\
    (T + a) mod d = 0 /\
    forall k, (T + k) mod d = 0 -> a <= k.
Proof.
  intros Hd. exists ((d - T mod d) mod d).
  split; [now apply pad_amount_nat |].
  split; [apply Nat.mod_upper_bound; lia |].
  split; [now apply padded_length_multiple |].
  intros k Hk.
  assert (Hr : T mod d < d) by (apply Nat.mod_upper_bound; lia).
  destruct (Nat.eq_dec (T mod d) 0) as [E | E].
  - rewrite E, Nat.sub_0_r, Nat.Div0.mod_same. lia.
  - rewrite Nat.mod_small by lia.
    destruct (Nat.lt_ge_cases k (d - T mod d)) as [Hlt | Hge]; [| exact Hge].
    exfalso.
    pose proof (Nat.div_mod T d ltac:(lia)) as HT.
    assert (Hmod : (T + k) mod d = T mod d + k).
    { symmetry. apply Nat.mod_unique with (q := T / d); lia. }
    lia.
Qed.

Lemma pad_amount_least_witness :
  exists a,
    pad_amount 7 3 = Some (Z.of_nat a) /\
    a < 3 /\
    (7 + a) mod 3 = 0 /\
    forall k, (7 + k) mod 3 = 0 -> a <= k.
Proof.
  apply (pad_amount_least 7 3). lia.
Defined.

(** ** Linearity in the filter *)

Lemma conv1d_valid_filter_linear (x : Tensor) (stride : nat) :
  linear_op (fun h => tf_nn_conv1d x h stride VALID).
Proof.
  split.
  - intros h1 h2 Hh. pose proof Hh as (_ & _ & Hsh).
    injection Hsh as H0 H1 H2.
    rewrite !conv1d_valid_sums.
    change (nonempty_filter (tensor_add h1 h2)) with (nonempty_filter h1).
    change (dim0 (tensor_add h1 h2)) with (dim0 h1).
    change (dim1 (tensor_add h1 h2)) with (dim1 h1).
    change (dim2 (tensor_add h1 h2)) with (dim2 h1).
    unfold nonempty_filter. rewrite <- H0, <- H1, <- H2.
    fold (nonempty_filter h1).
    destruct (nonempty_filter h1 && (dim2 x =? dim1 h1) && (1 <=? stride)
              && (dim0 h1 <=? dim1 x));
      [| split; [exact I | reflexivity]].
    split; [apply similar_tabulate |].
    cbn [lift2]. rewrite tensor_add_tabulate. f_equal.
    apply tabulate_ext. intros b t o _ _ _.
    rewrite <- sum_n_add. apply sum_n_ext. intros k _.
    rewrite <- sum_n_add. apply sum_n_ext. intros c _.
    rewrite get_tensor_add by assumption. lia.
  - intros c h. rewrite !conv1d_valid_sums.
    change (nonempty_filter (tensor_scale c h)) with (nonempty_filter h).
    change (dim0 (tensor_scale c h)) with (dim0 h).
    change (dim1 (tensor_scale c h)) with (dim1 h).
    change (dim2 (tensor_scale c h)) with (dim2 h).
    destruct (nonempty_filter h && (dim2 x =? dim1 h) && (1 <=? stride)
              && (dim0 h <=? dim1 x));
      [| reflexivity].
    cbn [option_map]. rewrite tensor_scale_tabulate. f_equal.
    apply tabulate_ext. intros b t o _ _ _.
    rewrite <- sum_n_scale. apply sum_n_ext. intros k _.
    rewrite <- sum_n_scale. apply sum_n_ext. intros c' _.
    rewrite get_tensor_scale. lia.
Qed.

Lemma dilated_causal_conv_filter_linear (input_len filter_width dilation : Z)
  (X : Tensor) :
  linear_op (fun H => dilated_causal_conv input_len filter_width dilation X H).
Proof.
  unfold dilated_causal_conv.
  destruct (subsample input_len dilation X) as [S |]; [| apply linear_none].
  cbn [bind].
  destruct (causal_pad filter_width S) as [P |]; [| apply linear_none].
  cbn [bind].
  apply (linear_bind (fun H => tf_nn_conv1d P H 1 VALID));
    [apply conv1d_valid_filter_linear | apply undo_subsample_linear].
Qed.

Lemma causal_conv_filter_linear (filter_width : Z) (X : Tensor) :
  linear_op (fun H => causal_conv filter_width X H).
Proof.
  unfold causal_conv.
  destruct (causal_pad filter_width X) as [P |]; [| apply linear_none].
  cbn [bind]. apply conv1d_valid_filter_linear.
Qed.

Lemma causal_conv_within (A B : Z) (filter_width : Z) (X H R : Tensor) :
  (0 <= A)%Z -> (0 <= B)%Z -> within A X = true -> within B H = true ->
  causal_conv filter_width X H = Some R ->
  within (window_size H * (A * B)) R = true.
Proof.
  intros HA HB HX HH. unfold causal_conv.
  destruct (causal_pad filter_width X) as [P |] eqn:EP; [| discriminate].
  cbn [bind]. intros ER.
  apply (conv1d_valid_within A B P H R 1 HA HB); [| exact HH | exact ER].
  eapply tf_pad_within; [exact HA | exact HX | exact EP].
Qed.

(** X14.  Each convolution is linear in the filter as well, while float32
    is exact.  Take a signal and two well-formed filters of one shape with
    at least one tap, input channel and output channel, all with integer
    values, of magnitude at most [A], [B] and [B'], such that the sum of
    the filters and every product and partial sum stay within [2 ^ 24]
    ([B + B' <= 2 ^ 24] and
    [filter_width * in_channels * A * (B + B') <= 2 ^ 24]), and a scalar [c]
    with the same for the scaled filter.  Then the valid and the causal
    convolution (on a signal with the filters' input channels) and the
    dilated causal convolution with the sum of the filters are the sums of
    the convolutions with each, a scalar multiple of the filter gives the
    same multiple of the output, and every sample of every result is
    within [2 ^ 24]. *)
Theorem convolutions_are_linear_in_filter (X h1 h2 : Tensor)
  (input_len filter_width dilation c A B B' : Z) :
  well_formed h1 -> well_formed h2 -> shape h1 = shape h2 ->
  1 <= dim0 h1 -> 1 <= dim1 h1 -> 1 <= dim2 h1 ->
  within A X = true -> within B h1 = true -> within B' h2 = true ->
  (0 <= A <= f32_int_limit)%Z -> (0 <= B)%Z -> (0 <= B')%Z ->
  (B + B' <= f32_int_limit)%Z ->
  (window_size h1 * (A * (B + B')) <= f32_int_limit)%Z ->
  (Z.abs c <= f32_int_limit)%Z ->
  (Z.abs c * B <= f32_int_limit)%Z ->
  (window_size h1 * (A * (Z.abs c * B)) <= f32_int_limit)%Z ->
  let causal H := causal_conv filter_width X H in
  let dilated H := dilated_causal_conv input_len filter_width dilation X H in
  (dim2 X = dim1 h1 ->
   basic_conv X (tensor_add h1 h2) =
     lift2 tensor_add (basic_conv X h1) (basic_conv X h2) /\
   causal (tensor_add h1 h2) = lift2 tensor_add (causal h1) (causal h2) /\
   basic_conv X (tensor_scale c h1) =
     option_map (tensor_scale c) (basic_conv X h1) /\
   causal (tensor_scale c h1) = option_map (tensor_scale c) (causal h1)) /\
  dilated (tensor_add h1 h2) = lift2 tensor_add (dilated h1) (dilated h2) /\
  dilated (tensor_scale c h1) = option_map (tensor_scale c) (dilated h1) /\
  (forall R, basic_conv X (tensor_add h1 h2) = Some R \/
             causal (tensor_add h1 h2) = Some R \/
             dilated (tensor_add h1 h2) = Some R \/
             basic_conv X (tensor_scale c h1) = Some R \/
             causal (tensor_scale c h1) = Some R \/
             dilated (tensor_scale c h1) = Some R ->
             within f32_int_limit R = true).
Proof.
  intros Hw1 Hw2 Hsh _ _ _ HwX Hw1b Hw2b [HA _] HB HB' _ Hsum _ _ Hscale
         causal dilated.
  assert (Hh : similar h1 h2) by (repeat split; assumption).
  destruct (conv1d_valid_filter_linear X 1) as [Hb Hbs].
  destruct (causal_conv_filter_linear filter_width X) as [Hc Hcs].
  destruct (dilated_causal_conv_filter_linear input_len filter_width dilation X)
    as [Hd Hds].
  pose proof (tensor_add_within B B' h1 h2 Hw1b Hw2b) as Hadd.
  pose proof (tensor_scale_within c B h1 Hw1b) as Hsc.
  assert (HBB : (0 <= B + B')%Z) by lia.
  assert (HcB : (0 <= Z.abs c * B)%Z)
    by (apply Z.mul_nonneg_nonneg; [apply Z.abs_nonneg | exact HB]).
  unfold basic_conv, causal, dilated.
  split.
  { intros _.
    split; [apply (Hb h1 h2 Hh) |].
    split; [apply (Hc h1 h2 Hh) |].
    split; [apply Hbs | apply Hcs]. }
  split; [apply (Hd h1 h2 Hh) |].
  split; [apply Hds |].
  intros R [HR | [HR | [HR | [HR | [HR | HR]]]]].
  - apply (within_mono _ _ R Hsum).
    now apply (conv1d_valid_within A (B + B') X (tensor_add h1 h2) R 1).
  - apply (within_mono _ _ R Hsum).
    now apply (causal_conv_within A (B + B') filter_width X
                 (tensor_add h1 h2) R).
  - apply (within_mono _ _ R Hsum).
    now apply (dilated_causal_conv_within A (B + B') input_len filter_width
                 dilation X (tensor_add h1 h2) R).
  - apply (within_mono _ _ R Hscale).
    now apply (conv1d_valid_within A (Z.abs c * B) X (tensor_scale c h1) R 1).
  - apply (within_mono _ _ R Hscale).
    now apply (causal_conv_within A (Z.abs c * B) filter_width X
                 (tensor_scale c h1) R).
  - apply (within_mono _ _ R Hscale).
    now apply (dilated_causal_conv_within A (Z.abs c * B) input_len
                 filter_width dilation X (tensor_scale c h1) R).
Qed.

Lemma convolutions_are_linear_in_filter_witness :
  let X := mkTensor 1 5 1 [1; 2; 3; 4; 5]%Z in
  let h1 := mkTensor 2 1 1 [1; 3]%Z in
  let h2 := mkTensor 2 1 1 [2; -1]%Z in
  let causal H := causal_conv 2 X H in
  let dilated H := dilated_causal_conv 5 2 2 X H in
  dilated (tensor_add h1 h2) = Some (mkTensor 1 6 1 [2; 4; 9; 14; 19; 12]%Z) /\
  (basic_conv X (tensor_add h1 h2) =
     lift2 tensor_add (basic_conv X h1) (basic_conv X h2) /\
   causal (tensor_add h1 h2) = lift2 tensor_add (causal h1) (causal h2) /\
   basic_conv X (tensor_scale 5 h1) =
     option_map (tensor_scale 5) (basic_conv X h1) /\
   causal (tensor_scale 5 h1) = option_map (tensor_scale 5) (causal h1)) /\
  dilated (tensor_add h1 h2) = lift2 tensor_add (dilated h1) (dilated h2) /\
  dilated (tensor_scale 5 h1) = option_map (tensor_scale 5) (dilated h1) /\
  (forall R, basic_conv X (tensor_add h1 h2) = Some R \/
             causal (tensor_add h1 h2) = Some R \/
             dilated (tensor_add h1 h2) = Some R \/
             basic_conv X (tensor_scale 5 h1) = Some R \/
             causal (tensor_scale 5 h1) = Some R \/
             dilated (tensor_scale 5 h1) = Some R ->
             within f32_int_limit R = true).
Proof.
  intros X h1 h2 causal dilated. split; [vm_compute; reflexivity |].
  destruct (convolutions_are_linear_in_filter X h1 h2 5 2 2 5 5 3 2)
    as (Hmatch & Hrest);
    try solve [reflexivity | simpl; lia
               | unfold f32_int_limit, window_size; simpl; lia].
  split; [apply Hmatch; reflexivity | exact Hrest].
Defined.

(** ** The accumulator and the impulse response *)

Lemma sum_n_rev (n : nat) (f : nat -> Z) :
  sum_n n f = sum_n n (fun j => f (n - 1 - j)).
Proof.
  induction n as [| n IH]; [reflexivity |].
  rewrite (sum_n_shift n (fun j => f (S n - 1 - j))).
  cbn [sum_n]. rewrite IH.
  replace (S n - 1 - 0) with n by lia.
  rewrite Z.add_comm. f_equal.
  apply sum_n_ext. intros j Hj. f_equal. lia.
Qed.

Lemma sum_n_truncate (n m : nat) (f : nat -> Z) :
  sum_n n (fun j => if j <? m then f j else 0%Z) = sum_n (Nat.min n m) f.
Proof.
  induction n as [| n IH]; [reflexivity |].
  cbn [sum_n]. rewrite IH.
  destruct (Nat.ltb_spec n m) as [Hlt | Hge].
  - replace (Nat.min (S n) m) with (S (Nat.min n m)) by lia.
    cbn [sum_n]. replace (Nat.min n m) with n by lia. reflexivity.
  - replace (Nat.min (S n) m) with (Nat.min n m) by lia. lia.
Qed.

Lemma sum_n_single (n k0 : nat) (f : nat -> Z) :
  k0 < n -> (forall k, k < n -> k <> k0 -> f k = 0%Z) -> sum_n n f = f k0.
Proof.
  intros Hk0 Hzero.
  replace n with (k0 + S (n - k0 - 1)) in * by lia.
  rewrite sum_n_app, sum_n_shift.
  rewrite (sum_n_zero k0) by (intros i Hi; apply Hzero; lia).
  rewrite (sum_n_zero (n - k0 - 1)) by (intros i Hi; apply Hzero; lia).
  rewrite Nat.add_0_r. lia.
Qed.

Lemma make_H_taps (fw k : nat) :
  exists H, make_H (Z.of_nat fw) = Some H /\ shape H = (fw, 1, 1) /\
            (k < fw -> tap H k = 1%Z).
Proof.
  unfold make_H, tf_ones. rewrite nonneg_of_nat, Nat2Z.id.
  cbn [nonneg Z.leb Z.compare andb Z.to_nat Pos.to_nat Pos.iter_op Nat.add].
  eexists. split; [reflexivity |]. split; [reflexivity |].
  intros Hk. unfold tap. now rewrite get_tabulate by lia.
Qed.

(** X15.  The all-ones filter of cell 4 makes the causal convolution of
    cell 6 an accumulator, while float32 is exact: on a non-empty signal of
    batch size 1 and one channel whose samples are integers of magnitude at
    most [A] with [filter_width * A <= 2 ^ 24], output sample [t] is the sum
    of the last [filter_width] input samples up to time [t] (of all [t + 1]
    of them while fewer than [filter_width] have arrived), itself within
    [2 ^ 24]. *)
Theorem ones_filter_accumulates (X : Tensor) (T fw : nat) (A : Z) :
  shape X = (1, T, 1) -> 1 <= T -> 1 <= fw ->
  within A X = true -> (0 <= A)%Z ->
  (Z.of_nat fw * A <= f32_int_limit)%Z ->
  exists H Y,
    make_H (Z.of_nat fw) = Some H /\
    causal_conv (Z.of_nat fw) X H = Some Y /\
    shape Y = (1, T, 1) /\
    forall t, t < T ->
      sample Y t = sum_n (Nat.min fw (t + 1)) (fun j => sample X (t - j)) /\
      (Z.abs (sample Y t) <= f32_int_limit)%Z.
Proof.
  intros Hsh HT Hfw HwX HA Hlim.
  destruct (make_H_taps fw 0) as (H & HH & HshH & _).
  assert (Htap : forall k, k < fw -> tap H k = 1%Z).
  { intros k Hk. destruct (make_H_taps fw k) as (H' & HH' & _ & Hk').
    rewrite HH in HH'. injection HH' as <-. now apply Hk'. }
  exists H. eexists.
  split; [exact HH |].
  split; [now apply (causal_conv_samples X H T fw) |].
  split; [reflexivity |].
  intros t Ht. rewrite sample_tabulate, (proj2 (Nat.ltb_lt _ _) Ht).
  assert (Hsum : causal_sum X H fw t =
                 sum_n (Nat.min fw (t + 1)) (fun j => sample X (t - j))).
  { unfold causal_sum. rewrite sum_n_rev, <- sum_n_truncate.
    apply sum_n_ext. intros j Hj.
    rewrite Htap by lia.
    destruct (Nat.ltb_spec (t + (fw - 1 - j)) (fw - 1)),
             (Nat.ltb_spec j (t + 1)); try lia.
    replace (t + (fw - 1 - j) - (fw - 1)) with (t - j) by lia. lia. }
  rewrite Hsum. split; [reflexivity |].
  assert (Hb : (Z.abs (sum_n (Nat.min fw (t + 1))
                         (fun j => sample X (t - j)))
                <= Z.of_nat (Nat.min fw (t + 1)) * A)%Z).
  { apply sum_n_abs_bound. intros j _. now apply within_get. }
  assert (Hmin : (Z.of_nat (Nat.min fw (t + 1)) <= Z.of_nat fw)%Z) by lia.
  assert ((Z.of_nat (Nat.min fw (t + 1)) * A <= Z.of_nat fw * A)%Z)
    by (apply Z.mul_le_mono_nonneg_r; assumption).
  lia.
Qed.

Lemma ones_filter_accumulates_witness :
  let X := mkTensor 1 4 1 [5; 6; 7; 8]%Z in
  exists H Y,
    make_H 2 = Some H /\
    causal_conv 2 X H = Some Y /\
    shape Y = (1, 4, 1) /\
    forall t, t < 4 ->
      sample Y t = sum_n (Nat.min 2 (t + 1)) (fun j => sample X (t - j)) /\
      (Z.abs (sample Y t) <= f32_int_limit)%Z.
Proof.
  intros X.
  apply (ones_filter_accumulates X 4 2 8);
    solve [reflexivity | lia | unfold f32_int_limit; simpl; lia].
Defined.

(** X16.  The impulse response of cell 8.  On the signal that is 1 at time 0
    and 0 afterwards, the output is the filter read backwards with its taps
    [d] apart: output sample [m * d] is tap [filter_width - 1 - m] for
    [m < filter_width], and every other output sample is 0.  So the last tap
    weighs the current sample and tap [filter_width - 1 - m] the sample
    [m * d] steps back. *)
Theorem dilated_impulse_response (H : Tensor) (T fw d : nat) :
  shape H = (fw, 1, 1) -> 1 <= T -> 1 <= fw -> 1 <= d ->
  let impulse := tabulate 1 T 1 (fun _ t _ => if t =? 0 then 1%Z else 0%Z) in
  exists D,
    dilated_causal_conv (Z.of_nat T) (Z.of_nat fw) (Z.of_nat d) impulse H
      = Some D /\
    forall t, t < dim1 D ->
      sample D t =
      if (t mod d =? 0) && (t / d <? fw) then tap H (fw - 1 - t / d) else 0%Z.
Proof.
  intros HshH HT Hfw Hd impulse.
  assert (Himp : forall u, sample impulse u = if u =? 0 then 1%Z else 0%Z).
  { intros u. unfold impulse. rewrite sample_tabulate.
    destruct (Nat.ltb_spec u T), (Nat.eqb_spec u 0); try reflexivity; lia. }
  eexists.
  split; [apply (dilated_causal_conv_tabulate impulse H T fw d);
          solve [apply tabulate_well_formed | reflexivity | assumption] |].
  rewrite dim1_tabulate. intros t Ht.
  rewrite sample_tabulate, (proj2 (Nat.ltb_lt _ _) Ht).
  unfold dilated_sum.
  assert (Hr : t mod d < d) by (apply Nat.mod_upper_bound; lia).
  assert (Hterm : forall k, k < fw ->
            Z.mul (if t / d + k <? fw - 1 then 0%Z
                   else sample impulse ((t / d + k - (fw - 1)) * d + t mod d))
                  (tap H k) =
            if (t mod d =? 0) && (t / d + k =? fw - 1) then tap H k else 0%Z).
  { intros k Hk. rewrite Himp.
    destruct (Nat.ltb_spec (t / d + k) (fw - 1)) as [Hlt | Hge].
    - destruct (Nat.eqb_spec (t / d + k) (fw - 1)); [lia |].
      rewrite andb_false_r. reflexivity.
    - destruct (Nat.eqb_spec (t mod d) 0) as [E0 | E0];
        destruct (Nat.eqb_spec (t / d + k) (fw - 1)) as [E1 | E1];
        cbn [andb].
      + rewrite E0, E1, Nat.sub_diag, Nat.mul_0_l.
        cbn [Nat.add Nat.eqb]. apply Z.mul_1_l.
      + destruct (Nat.eqb_spec ((t / d + k - (fw - 1)) * d + t mod d) 0);
          [nia | lia].
      + destruct (Nat.eqb_spec ((t / d + k - (fw - 1)) * d + t mod d) 0);
          [nia | lia].
      + destruct (Nat.eqb_spec ((t / d + k - (fw - 1)) * d + t mod d) 0);
          [nia | lia]. }
  rewrite (sum_n_ext fw _ _ Hterm).
  destruct (Nat.eqb_spec (t mod d) 0) as [E0 | E0]; cbn [andb].
  - destruct (Nat.ltb_spec (t / d) fw) as [Hlt | Hge].
    + rewrite (sum_n_single fw (fw - 1 - t / d)).
      * destruct (Nat.eqb_spec (t / d + (fw - 1 - t / d)) (fw - 1)); [reflexivity | lia].
      * lia.
      * intros k Hk Hne.
        destruct (Nat.eqb_spec (t / d + k) (fw - 1)); [lia | reflexivity].
    + apply sum_n_zero. intros k Hk.
      destruct (Nat.eqb_spec (t / d + k) (fw - 1)); [lia | reflexivity].
  - apply sum_n_zero. intros; reflexivity.
Qed.

Lemma dilated_impulse_response_witness :
  let H := mkTensor 3 1 1 [7; 8; 9]%Z in
  let impulse := tabulate 1 5 1 (fun _ t _ => if t =? 0 then 1%Z else 0%Z) in
  dilated_causal_conv 5 3 2 impulse H
    = Some (mkTensor 1 6 1 [9; 0; 8; 0; 7; 0]%Z) /\
  exists D,
    dilated_causal_conv 5 3 2 impulse H = Some D /\
    forall t, t < dim1 D ->
      sample D t =
      if (t mod 2 =? 0) && (t / 2 <? 3) then tap H (3 - 1 - t / 2) else 0%Z.
Proof.
  intros H impulse. split; [vm_compute; reflexivity |].
  apply (dilated_impulse_response H 5 3 2); (reflexivity || lia).
Defined.
